(** * cpp-snippets: the random-access unordered map and the modular arithmetic helpers

    A shallow embedding of two C++ translation units:

    - the one that defines the class template
      [RandomAccessUnorderedMap<K, V>]: a [std::vector<Element>] called
      [element_set], a [std::unordered_map<K, uint32_t>] called [index_map],
      and a [std::mt19937];
    - [modular_arithmetic_main.cpp]: the arithmetic modulo [n] on
      [uint64_t], from [mod_add] and [mod_multiply] to [mod_power] and the
      inverses, and [mod] on [int64_t].

    Machine integers are mathematical integers ([Z]) with the wrap-around of
    every conversion and operation written out; [size_t] and [uint64_t] have
    64 bits, [uint32_t] and [int] have 32.  A call either returns, aborts on
    a failed [assert] (the files are compiled without [NDEBUG]), or has
    undefined behaviour. *)

From Stdlib Require Import QArith.
From Stdlib Require Zmod.ZmodInv.
From stdpp Require Import gmap list numbers strings.

Local Open Scope Z_scope.

(** ** Outcomes of a C++ call *)

Inductive outcome (A : Type) : Type :=
| Normal (a : A)   (* the call returns [a] *)
| Aborted          (* an [assert] fails and the process aborts *)
| Undefined.       (* undefined behaviour: unchecked out-of-range access,
                      violated precondition of a library call *)
Arguments Normal {A} a.
Arguments Aborted {A}.
Arguments Undefined {A}.

#[global] Instance outcome_eq_dec {A} `{EqDecision A} : EqDecision (outcome A).
Proof. solve_decision. Defined.

#[global] Instance outcome_ret : MRet outcome := @Normal.
#[global] Instance outcome_bind : MBind outcome := λ A B f m,
  match m with
  | Normal a => f a
  | Aborted => Aborted
  | Undefined => Undefined
  end.

(** Two's-complement conversions. *)
Definition wrap (w : Z) (z : Z) : Z := z mod 2 ^ w.

Definition to_signed (w : Z) (z : Z) : Z :=
  let u := wrap w z in
  if u <? 2 ^ (w - 1) then u else u - 2 ^ w.

(** * Modular arithmetic on [uint64_t] *)

Module ModularArithmetic.

(** A computation on [uint64_t] values.  Besides its outcome it reports
    whether every unsigned operation evaluated so far was exact, that is,
    whether no intermediate result was reduced modulo [2^64]. *)
Record tracked (A : Type) : Type := Tracked { run : outcome (A * bool) }.
Arguments Tracked {A} run.
Arguments run {A} t.

#[global] Instance tracked_ret : MRet tracked := λ A a, Tracked (Normal (a, true)).
#[global] Instance tracked_bind : MBind tracked := λ A B f m,
  Tracked
    match run m with
    | Normal (a, e1) =>
        match run (f a) with
        | Normal (b, e2) => Normal (b, e1 && e2)
        | Aborted => Aborted
        | Undefined => Undefined
        end
    | Aborted => Aborted
    | Undefined => Undefined
    end.

Definition assert (c : bool) : tracked unit :=
  if c then mret () else Tracked Aborted.

Definition is_u64 (z : Z) : Prop := 0 ≤ z < 2 ^ 64.

(** [x + y] and [x - y] on [uint64_t]. *)
Definition add64 (x y : Z) : tracked Z :=
  Tracked (Normal (wrap 64 (x + y), x + y <? 2 ^ 64)).
Definition sub64 (x y : Z) : tracked Z :=
  Tracked (Normal (wrap 64 (x - y), 0 <=? x - y)).

(** [mod_add], lines 28-43. *)
Definition mod_add (a b n : Z) : tracked Z :=
  assert (a <? n);;
  assert (b <? n);;
  assert (n >? 0);;
  if b =? 0 then mret a
  else
    b ← sub64 n b;
    if a >=? b then sub64 a b
    else t ← sub64 n b; add64 t a.

(** The [while (b)] loop of [mod_multiply], lines 128-136.  [fuel] bounds the
    number of times the body runs; [None] is returned when it runs out. *)
Fixpoint mod_multiply_loop (fuel : nat) (product a b n : Z) : tracked (option Z) :=
  if negb (b =? 0) then
    match fuel with
    | O => mret None
    | S fuel =>
        product ← (if negb (Z.land b 1 =? 0) then mod_add product a n
                   else mret product);
        a ← mod_add a a n;
        mod_multiply_loop fuel product a (Z.shiftr b 1) n
    end
  else mret (Some product).

(** [mod_multiply], lines 116-138.  A [uint64_t] has 64 bits, and each
    iteration shifts [b] right by one. *)
Definition mod_multiply (a b n : Z) : tracked (option Z) :=
  assert (a <? n);;
  assert (b <? n);;
  assert (n >? 0);;
  let '(a, b) := if b >? a then (b, a) else (a, b) in
  mod_multiply_loop 64 0 a b n.

(** ** The other functions of the file *)

(** Computations that may run out of fuel in a loop: [None] is passed on. *)
Definition bind_fuel {A B} (m : tracked (option A))
    (f : A → tracked (option B)) : tracked (option B) :=
  o ← m;
  match o with
  | Some a => f a
  | None => mret None
  end.

Definition is_i64 (z : Z) : Prop := - 2 ^ 63 ≤ z < 2 ^ 63.

(** Arithmetic on [int64_t]: a result outside the type, or a division by
    zero, is undefined behaviour. *)
Definition signed64 (z : Z) : tracked Z :=
  if (- 2 ^ 63 <=? z) && (z <? 2 ^ 63) then mret z else Tracked Undefined.
Definition sadd64 (x y : Z) : tracked Z := signed64 (x + y).
Definition sdiv64 (x y : Z) : tracked Z :=
  if y =? 0 then Tracked Undefined else signed64 (Z.quot x y).
Definition srem64 (x y : Z) : tracked Z :=
  _ ← sdiv64 x y; mret (Z.rem x y).

(** [mod], lines 12-16, on [int64_t]; the result is converted to the
    [uint64_t] it returns. *)
Definition mod_ (a n : Z) : tracked Z :=
  assert (n >? 0);;
  r ← srem64 a n;
  s ← sadd64 r n;
  t ← srem64 s n;
  mret (wrap 64 t).

(** [mod_subtract], lines 47-61. *)
Definition mod_subtract (a b n : Z) : tracked Z :=
  assert (a <? n);;
  assert (b <? n);;
  assert (n >? 0);;
  if a >=? b then sub64 a b
  else t ← sub64 n b; add64 t a.

(** [mod_increment], lines 65-76. *)
Definition mod_increment (a n : Z) : tracked Z :=
  assert (a <? n);;
  assert (n >? 0);;
  a ← add64 a 1;
  mret (if a =? n then 0 else a).

(** [mod_decrement], lines 80-94. *)
Definition mod_decrement (a n : Z) : tracked Z :=
  assert (a <? n);;
  assert (n >? 0);;
  if a =? 0 then sub64 n 1 else sub64 a 1.

(** [mod_additive_inverse], lines 99-112. *)
Definition mod_additive_inverse (a n : Z) : tracked Z :=
  assert (a <? n);;
  assert (n >? 0);;
  if a =? 0 then mret 0 else sub64 n a.

(** [mod_sqr], lines 141-146. *)
Definition mod_sqr (a n : Z) : tracked (option Z) :=
  assert (a <? n);;
  assert (n >? 0);;
  mod_multiply a a n.

(** The [while (1)] loop of [mod_power], lines 163-175; it is left by the
    [break] once [e] is zero after the shift. *)
Fixpoint mod_power_loop (fuel : nat) (y z e n : Z) : tracked (option Z) :=
  match fuel with
  | O => mret None
  | S fuel =>
      bind_fuel (if negb (Z.land e 1 =? 0) then mod_multiply y z n
                 else mret (Some y)) (λ y,
      let e := Z.shiftr e 1 in
      if 0 =? e then mret (Some y)
      else bind_fuel (mod_sqr z n) (λ z, mod_power_loop fuel y z e n))
  end.

(** [mod_power], lines 150-178. *)
Definition mod_power (a e n : Z) : tracked (option Z) :=
  assert (a <? n);;
  assert (n >? 0);;
  if e =? 0 then mret (Some 1)
  else mod_power_loop 64 1 a e n.

(** [mod_multiplicative_inverse], lines 183-188; [n - 2] is computed on
    [uint64_t]. *)
Definition mod_multiplicative_inverse (a n : Z) : tracked (option Z) :=
  assert (a <? n);;
  assert (n >? 0);;
  e ← sub64 n 2;
  mod_power a e n.

End ModularArithmetic.

(** * The random-access unordered map *)

Module RandomAccessUnorderedMap.

(** ** [std::vector] operations used by the class

    [operator[]] and [pop_back] are unchecked: outside their preconditions
    the behaviour is undefined. *)
Section vector.
Context {A : Type}.

(** [v.size()], a [size_t]. *)
Definition vec_size (v : list A) : Z := Z.of_nat (length v).

(** [v[i]] for a [size_t] index [i]. *)
Definition vec_at (v : list A) (i : Z) : outcome A :=
  if (0 <=? i) && (i <? vec_size v) then
    match v !! Z.to_nat i with
    | Some x => Normal x
    | None => Undefined
    end
  else Undefined.

(** [v.pop_back()]. *)
Definition vec_pop_back (v : list A) : outcome (list A) :=
  match v with
  | [] => Undefined
  | _ => Normal (take (Nat.pred (length v)) v)
  end.

(** [std::swap(v[i], v[j])]. *)
Definition vec_swap (v : list A) (i j : Z) : outcome (list A) :=
  x ← vec_at v i;
  y ← vec_at v j;
  mret (<[Z.to_nat j := x]> (<[Z.to_nat i := y]> v)).

End vector.

Section container.
Context {K V : Type} `{Countable K}.

(** The state of a [std::mt19937], and
    [std::uniform_int_distribution<int>(a, b)] applied to it: the value drawn
    and the next state. *)
Context {G : Type}.
Variable uniform_int_distribution : Z → Z → G → Z * G.

Record Element : Type := { key : K; value : V }.

Record t : Type := {
  element_set : list Element;
  index_map : gmap K Z;            (* the mapped type is [uint32_t] *)
  random_number_generator : G
}.

(** The constructor; [g] is the generator seeded from [std::random_device]. *)
Definition empty (g : G) : t :=
  {| element_set := []; index_map := ∅; random_number_generator := g |}.

(** [index_map.insert(std::pair(k, i))]: ignored when [k] is already
    mapped. *)
Definition umap_insert (k : K) (i : Z) (im : gmap K Z) : gmap K Z :=
  match im !! k with
  | Some _ => im
  | None => <[k := i]> im
  end.

(** [find_index], lines 27-35. *)
Definition find_index (k : K) (m : t) : option Z := index_map m !! k.

(** [find], lines 71-79.  It reads its [const K &key] once, in
    [find_index], and changes nothing: the argument is the key read. *)
Definition find (k : K) (m : t) : outcome (option V) :=
  match find_index k m with
  | Some index =>
      e ← vec_at (element_set m) index;
      mret (Some (value e))
  | None => mret None
  end.

(** ** Reference arguments

    [remove] and [insert] take [const K &key] and [const V &value] and read
    them again after they have changed the container.  [element_set] and
    [index_map] are public, so besides an object outside the container a
    caller can pass a part of an entry of [element_set] (its [key], its
    [value]) or of a node of [index_map] (its key, its slot number): [field]
    selects the part.  Such a reference is read in the state the container
    has at that moment. *)
Inductive place (A : Type) : Type :=
| Outside (a : A)
| InElement (i : Z) (field : Element → A)
| InIndex (k : K) (field : K → Z → A).
Arguments Outside {A} a.
Arguments InElement {A} i field.
Arguments InIndex {A} k field.

(** Reading through the reference.  An entry that [pop_back] has destroyed
    and a node that [erase] has freed can no longer be read. *)
Definition read {A : Type} (p : place A) (m : t) : outcome A :=
  match p with
  | Outside a => Normal a
  | InElement i field =>
      e ← vec_at (element_set m) i;
      mret (field e)
  | InIndex k field =>
      match index_map m !! k with
      | Some i => Normal (field k i)
      | None => Undefined
      end
  end.

(** Reading after [emplace_back].  It reallocates when the vector has no
    spare capacity, and then every reference into [element_set] is invalid.
    The embedding does not track the capacity: it knows that there is room
    ([spare]) when an entry has just been removed, and otherwise takes the
    read through a reference into [element_set] as undefined. *)
Definition read_after_emplace_back {A : Type} (p : place A) (spare : bool)
    (m : t) : outcome A :=
  match p with
  | InElement _ _ => if spare then read p m else Undefined
  | _ => read p m
  end.

(** [remove], lines 81-108.  [element_set.size() - 1] is computed on
    [size_t]; [index] is a [uint32_t] promoted to [size_t] for the
    comparison.  [key] is read by [find_index] (line 84) and again by
    [index_map.erase(key)] (line 106), after the swap and the
    [pop_back]. *)
Definition remove (key_ref : place K) (m : t) : outcome t :=
  k ← read key_ref m;
  match find_index k m with
  | Some index =>
      let last := wrap 64 (vec_size (element_set m) - 1) in
      '(es, im) ←
        (if index =? last then
           es ← vec_pop_back (element_set m);
           mret (es, index_map m)
         else
           es ← vec_swap (element_set m) index last;
           es ← vec_pop_back es;
           e ← vec_at es index;
           mret (es, <[key e := index]> (index_map m)));
      k ← read key_ref {| element_set := es;
                          index_map := im;
                          random_number_generator := random_number_generator m |};
      mret {| element_set := es;
              index_map := delete k im;
              random_number_generator := random_number_generator m |}
  | None => mret m
  end.

(** [insert], lines 110-119.  [key] is forwarded to [remove] (line 113),
    read with [value] to build the [Element] (line 116), and read again
    for the pair (line 118), after [emplace_back].  The new slot number
    [size() - 1] is a [size_t] converted to the [uint32_t] of the pair. *)
Definition insert (key_ref : place K) (value_ref : place V) (m : t)
    : outcome t :=
  m1 ← remove key_ref m;
  k ← read key_ref m1;
  v ← read value_ref m1;
  let es := element_set m1 ++ [ {| key := k; value := v |} ] in
  let spare := vec_size (element_set m1) <? vec_size (element_set m) in
  k ← read_after_emplace_back key_ref spare
        {| element_set := es;
           index_map := index_map m1;
           random_number_generator := random_number_generator m1 |};
  mret {| element_set := es;
          index_map := umap_insert k (wrap 32 (wrap 64 (vec_size es - 1)))
                         (index_map m1);
          random_number_generator := random_number_generator m1 |}.

(** [random_key], lines 121-126.  The upper bound is a [size_t] converted
    to the [int] parameter of the distribution, whose constructor requires
    [a <= b]; the drawn [int] is converted back to [size_t] by
    [operator[]]. *)
Definition random_key (m : t) : outcome (K * t) :=
  let b := to_signed 32 (wrap 64 (vec_size (element_set m) - 1)) in
  if 0 <=? b then
    let '(random_index, g) :=
      uniform_int_distribution 0 b (random_number_generator m) in
    e ← vec_at (element_set m) (wrap 64 random_index);
    mret (key e, {| element_set := element_set m;
                    index_map := index_map m;
                    random_number_generator := g |})
  else Undefined.

(** The number of entries, as the class reads it: [element_set.size()].
    The class has no [size] member of its own; [element_set] is public. *)
Definition size (m : t) : Z := vec_size (element_set m).

(** ** Invariants *)

(** The values the C++ types can hold: the mapped values of [index_map]
    are [uint32_t], the size of [element_set] is a [size_t]. *)
Definition well_typed (m : t) : Prop :=
  map_Forall (λ _ i, 0 ≤ i < 2 ^ 32) (index_map m)
  ∧ vec_size (element_set m) < 2 ^ 64.

(** Every indexed key points at a valid slot that holds it. *)
Definition index_sound (m : t) : Prop :=
  map_Forall (λ k i, (0 ≤ i < vec_size (element_set m))
                     ∧ key <$> element_set m !! Z.to_nat i = Some k)
    (index_map m).

(** The invariant of the container: the position index is sound and has
    as many entries as the dense store. *)
Definition invariant (m : t) : Prop :=
  index_sound m
  ∧ Z.of_nat (base.size (index_map m)) = vec_size (element_set m).

(** Every slot of the dense store is indexed under its key. *)
Definition slots_indexed (m : t) : Prop :=
  ∀ j e, element_set m !! j = Some e →
         index_map m !! key e = Some (Z.of_nat j).

#[global] Instance well_typed_dec m : Decision (well_typed m).
Proof. unfold well_typed. apply _. Defined.
#[global] Instance index_sound_dec m : Decision (index_sound m).
Proof. unfold index_sound. apply _. Defined.
#[global] Instance invariant_dec m : Decision (invariant m).
Proof. unfold invariant. apply _. Defined.

(** The value stored under a key: the value of the entry its slot holds. *)
Definition stored (m : t) (k : K) : option V :=
  i ← index_map m !! k; value <$> element_set m !! Z.to_nat i.

(** ** Sequences of calls

    A call of a sequence passes objects outside the container: the key and
    the value are given by value here, and [step] hands them over as
    [Outside].  Calls on references into the container are stated on
    [remove] and [insert] themselves. *)

Inductive op : Type :=
| Insert (k : K) (v : V)
| Remove (k : K)
| Find (k : K).

Definition step (o : op) (m : t) : outcome t :=
  match o with
  | Insert k v => insert (Outside k) (Outside v) m
  | Remove k => remove (Outside k) m
  | Find k => _ ← find k m; mret m
  end.

(** The states produced from the empty container by a finite sequence of
    [insert], [remove] and [find] calls. *)
Inductive reachable : t → Prop :=
| reachable_empty g : reachable (empty g)
| reachable_step o m m' :
    reachable m → step o m = Normal m' → reachable m'.

(** The same, recording the calls, for sequences during which the dense
    store never holds more than [2^32] entries: as many as there are
    [uint32_t] slot numbers. *)
Inductive runs_within_capacity (g : G) : list op → t → Prop :=
| runs_nil : runs_within_capacity g [] (empty g)
| runs_snoc ops o m m' :
    runs_within_capacity g ops m →
    step o m = Normal m' →
    size m' ≤ 2 ^ 32 →
    runs_within_capacity g (ops ++ [o]) m'.

(** What a sequence of calls leaves under key [k]: the value of the last
    [insert] of [k], unless a [remove] of [k] came after it. *)
Definition last_write (k : K) (ops : list op) : option V :=
  foldl (λ acc o,
           match o with
           | Insert k' v => if decide (k' = k) then Some v else acc
           | Remove k' => if decide (k' = k) then None else acc
           | Find _ => acc
           end) None ops.

(** [insert(k, v)] for each [v] of [vs] in turn. *)
Definition insert_each (k : K) (vs : list V) (m : t) : outcome t :=
  foldl (λ r v, r ≫= insert (Outside k) (Outside v)) (Normal m) vs.

(** The calls of a sequence leave key [k] alone: each is an [insert] or a
    [remove] of another key, or a [find]. *)
Definition untouched (k : K) (ops : list op) : Prop :=
  Forall (λ o, match o with
               | Insert k' _ | Remove k' => k' ≠ k
               | Find _ => True
               end) ops.

(** ** The distribution of [random_key]

    [std::uniform_int_distribution<int>(0, b)] yields each integer of
    [[0, b]] with the same probability.  [random_key_draws] lists these
    equally likely draws, [key_of_draw] is what [random_key] returns for a
    draw, and [random_key_probability] is the resulting probability of a
    key. *)
Definition random_key_draws (m : t) : list Z :=
  seqZ 0 (to_signed 32 (wrap 64 (vec_size (element_set m) - 1)) + 1).

Definition key_of_draw (m : t) (random_index : Z) : outcome K :=
  e ← vec_at (element_set m) (wrap 64 random_index);
  mret (key e).

Definition random_key_probability (m : t) (k : K) : Q :=
  Qmake
    (Z.of_nat (length (filter (λ r, key_of_draw m r = Normal k)
                         (random_key_draws m))))
    (Z.to_pos (Z.of_nat (length (random_key_draws m)))).

End container.

Arguments Element : clear implicits.
Arguments t K V {_ _} G.
Arguments op : clear implicits.
Arguments place K V A : clear implicits.
Arguments Outside {K V A} a.
Arguments InElement {K V A} i field.
Arguments InIndex {K V A} k field.

(** A generator for examples: a counter, reduced into the range. *)
Definition counter_distribution (a b : Z) (g : Z) : Z * Z :=
  (a + g mod (b - a + 1), g + 1).

(** The container after [insert(0, 0)], ..., [insert(n-1, n-1)] on keys and
    values of type [N], with the counter as generator. *)
Definition fill (n : N) : outcome (t N N Z) :=
  N.peano_rect (λ _, outcome (t N N Z))
    (Normal (empty 0))
    (λ i r, m ← r; insert (Outside i) (Outside i) m) n.

End RandomAccessUnorderedMap.

(** * Facts about the random-access unordered map *)

Import RandomAccessUnorderedMap.

Lemma wrap_small w z : 0 ≤ z < 2 ^ w → wrap w z = z.
Proof. intros. unfold wrap. by apply Z.mod_small. Qed.

Lemma wrap_range w z : 0 ≤ w → 0 ≤ wrap w z < 2 ^ w.
Proof. intros. unfold wrap. apply Z.mod_pos_bound. by apply Z.pow_pos_nonneg. Qed.

Section vector_facts.
Context {A : Type}.
Implicit Types (v : list A) (i : Z) (j : nat).

Lemma vec_size_nonneg v : 0 ≤ vec_size v.
Proof. unfold vec_size. lia. Qed.

Lemma vec_size_snoc v x : vec_size (v ++ [x]) = vec_size v + 1.
Proof. unfold vec_size. rewrite length_app. simpl. lia. Qed.

Lemma vec_at_lookup v j x : v !! j = Some x → vec_at v (Z.of_nat j) = Normal x.
Proof.
  intros Hj. unfold vec_at, vec_size.
  pose proof (lookup_lt_Some _ _ _ Hj).
  rewrite Nat2Z.id, Hj.
  destruct (Z.leb_spec 0 (Z.of_nat j)), (Z.ltb_spec (Z.of_nat j) (Z.of_nat (length v)));
    simpl; try done; lia.
Qed.

Lemma vec_at_slot v i x : 0 ≤ i → v !! Z.to_nat i = Some x → vec_at v i = Normal x.
Proof. intros ? Hi. rewrite <-(Z2Nat.id i) by done. by apply vec_at_lookup. Qed.

Lemma vec_at_Normal v i x : vec_at v i = Normal x → 0 ≤ i ∧ v !! Z.to_nat i = Some x.
Proof.
  unfold vec_at. destruct (Z.leb_spec 0 i); simpl; [|done].
  destruct (i <? vec_size v); [|done].
  destruct (v !! Z.to_nat i); naive_solver.
Qed.

Lemma vec_at_out_of_range v i : ¬ (0 ≤ i < vec_size v) → vec_at v i = Undefined.
Proof.
  intros Hi. unfold vec_at.
  destruct (Z.leb_spec 0 i), (Z.ltb_spec i (vec_size v)); simpl; try done; lia.
Qed.

Lemma vec_pop_back_nonempty v :
  v ≠ [] → vec_pop_back v = Normal (take (Nat.pred (length v)) v).
Proof. by destruct v. Qed.

End vector_facts.

Section facts.
Context {K V : Type} `{Countable K} {G : Type}.
Implicit Types (m : t K V G) (k : K) (v : V) (i : Z) (j : nat) (e : Element K V).

(** With arguments outside the container every read of [key] and [value]
    gives the same object: the calls are those on the key and the value. *)
Lemma remove_outside k m :
  remove (Outside k) m =
    match find_index k m with
    | Some index =>
        let last := wrap 64 (vec_size (element_set m) - 1) in
        '(es, im) ←
          (if index =? last then
             es ← vec_pop_back (element_set m);
             mret (es, index_map m)
           else
             es ← vec_swap (element_set m) index last;
             es ← vec_pop_back es;
             e ← vec_at es index;
             mret (es, <[key e := index]> (index_map m)));
        mret {| element_set := es;
                index_map := delete k im;
                random_number_generator := random_number_generator m |}
    | None => mret m
    end.
Proof.
  unfold remove. cbn [read mbind outcome_bind].
  destruct (find_index k m); [|done].
  by destruct (_ : outcome (list (Element K V) * gmap K Z)) as [[es im]| |].
Qed.

Lemma insert_outside k v m :
  insert (Outside k) (Outside v) m =
    m ← remove (Outside k) m;
    let es := element_set m ++ [ {| key := k; value := v |} ] in
    mret {| element_set := es;
            index_map := umap_insert k (wrap 32 (wrap 64 (vec_size es - 1)))
                           (index_map m);
            random_number_generator := random_number_generator m |}.
Proof. unfold insert. by destruct (remove (Outside k) m). Qed.

Lemma index_sound_lookup m k i :
  index_sound m → index_map m !! k = Some i →
  ∃ e, 0 ≤ i ∧ element_set m !! Z.to_nat i = Some e ∧ key e = k.
Proof.
  intros Hs Hk. destruct (Hs k i Hk) as [[? _] He].
  destruct (element_set m !! Z.to_nat i) as [e|] eqn:Hl; [|done].
  exists e. by simplify_eq/=.
Qed.

(** Two keys never share a slot. *)
Lemma index_sound_inj m k1 k2 i :
  index_sound m → index_map m !! k1 = Some i → index_map m !! k2 = Some i →
  k1 = k2.
Proof.
  intros Hs H1 H2.
  destruct (index_sound_lookup _ _ _ Hs H1) as (e1 & _ & He1 & <-).
  destruct (index_sound_lookup _ _ _ Hs H2) as (e2 & _ & He2 & <-).
  congruence.
Qed.

(** The invariant counts: a sound index with as many entries as there are
    slots reaches every slot. *)
Lemma invariant_slots_indexed m : invariant m → slots_indexed m.
Proof.
  intros [Hs Hsize] j e Hj.
  set (slots := (map_to_list (index_map m)).*2).
  assert (NoDup slots) as Hnd.
  { apply NoDup_fmap_2_strong; [|apply NoDup_map_to_list].
    intros [k1 i1] [k2 i2] ?%elem_of_map_to_list ?%elem_of_map_to_list ?.
    simplify_eq/=. f_equal. eauto using index_sound_inj. }
  assert (∀ i, i ∈ slots → i ∈ seqZ 0 (vec_size (element_set m))) as Hsub.
  { intros i ([k i'] & -> & Hk%elem_of_map_to_list)%list_elem_of_fmap.
    apply elem_of_seqZ. destruct (Hs k i' Hk) as [? _]. simpl. lia. }
  assert (slots ≡ₚ seqZ 0 (vec_size (element_set m))) as Hperm.
  { apply submseteq_length_Permutation; [by apply NoDup_submseteq|].
    unfold slots. rewrite length_fmap, length_map_to_list, length_seqZ.
    unfold vec_size in *. lia. }
  assert (Z.of_nat j ∈ slots) as ([k i] & Hi & Hk%elem_of_map_to_list)%list_elem_of_fmap.
  { rewrite Hperm. apply elem_of_seqZ.
    pose proof (lookup_lt_Some _ _ _ Hj). unfold vec_size. lia. }
  simpl in Hi. subst i.
  destruct (index_sound_lookup _ _ _ Hs Hk) as (e' & _ & He' & <-).
  rewrite Nat2Z.id in He'. congruence.
Qed.

(** A well-typed state that satisfies the invariant holds at most [2^32]
    entries: slot numbers are [uint32_t]. *)
Lemma invariant_capacity m :
  well_typed m → invariant m → size m ≤ 2 ^ 32.
Proof.
  intros [Ht _] Hinv. pose proof (invariant_slots_indexed _ Hinv) as Hb.
  unfold size.
  destruct (element_set m) as [|e0 es] eqn:Hes using rev_ind; [done|].
  clear IHes.
  specialize (Hb (length es) e0). rewrite Hes in Hb.
  rewrite lookup_app_r, Nat.sub_diag in Hb by done.
  specialize (Hb eq_refl). apply Ht in Hb. simpl in Hb.
  rewrite vec_size_snoc. unfold vec_size. lia.
Qed.

Lemma remove_absent m k : index_map m !! k = None → remove (Outside k) m = Normal m.
Proof. intros Hk. rewrite remove_outside. unfold find_index. by rewrite Hk. Qed.

(** Closed form of [remove] on a present key: the last entry is written
    over slot [i] of the shortened store (nothing is written when [i] is
    the last slot), and re-indexed before [k] is erased. *)
Lemma remove_present m k i e_l :
  well_typed m → invariant m →
  index_map m !! k = Some i →
  element_set m !! Nat.pred (length (element_set m)) = Some e_l →
  remove (Outside k) m =
    Normal {| element_set :=
                <[Z.to_nat i := e_l]>
                  (take (Nat.pred (length (element_set m))) (element_set m));
              index_map := delete k (<[key e_l := i]> (index_map m));
              random_number_generator := random_number_generator m |}.
Proof.
  intros [_ Hsz] Hinv Hk Hl.
  pose proof (invariant_slots_indexed _ Hinv) as Hb. destruct Hinv as [Hs _].
  destruct (index_sound_lookup _ _ _ Hs Hk) as (e_i & Hi0 & Hi & Hkey).
  pose proof (lookup_lt_Some _ _ _ Hi) as Hlt.
  rewrite remove_outside. unfold find_index. rewrite Hk. unfold vec_size in *.
  rewrite wrap_small by lia.
  destruct (Z.eqb_spec i (Z.of_nat (length (element_set m)) - 1)) as [Heq|Hne].
  - assert (Z.to_nat i = Nat.pred (length (element_set m))) as Hj by lia.
    rewrite vec_pop_back_nonempty by (by intros Hnil; rewrite Hnil in Hi).
    cbn. f_equal. rewrite Hj in *. assert (e_l = e_i) as -> by congruence.
    rewrite list_insert_ge by (rewrite length_take; lia).
    rewrite Hkey, insert_id by done. done.
  - unfold vec_swap.
    rewrite (vec_at_slot _ _ _ Hi0 Hi). cbn.
    replace (Z.of_nat (length (element_set m)) - 1)
      with (Z.of_nat (Nat.pred (length (element_set m)))) by lia.
    rewrite (vec_at_lookup _ _ _ Hl). cbn. rewrite Nat2Z.id.
    rewrite vec_pop_back_nonempty
      by (intros Hnil%(f_equal length); rewrite !length_insert in Hnil;
          simpl in Hnil; lia).
    cbn. rewrite !length_insert.
    rewrite take_insert_ge, take_insert_lt by lia.
    erewrite vec_at_slot
      by (try apply list_lookup_insert_eq; try rewrite length_take; lia).
    done.
Qed.

Lemma remove_present_invariant m k i e_l :
  well_typed m → invariant m →
  index_map m !! k = Some i →
  element_set m !! Nat.pred (length (element_set m)) = Some e_l →
  let m' := {| element_set :=
                <[Z.to_nat i := e_l]>
                  (take (Nat.pred (length (element_set m))) (element_set m));
              index_map := delete k (<[key e_l := i]> (index_map m));
              random_number_generator := random_number_generator m |} in
  well_typed m' ∧ invariant m'.
Proof.
  intros Hwt Hinv Hk Hl m'.
  pose proof (invariant_slots_indexed _ Hinv) as Hb.
  destruct Hwt as [Ht Hsz]. destruct Hinv as [Hs Hsize].
  destruct (index_sound_lookup _ _ _ Hs Hk) as (e_i & Hi0 & Hi & Hkey).
  pose proof (lookup_lt_Some _ _ _ Hi) as Hlt.
  pose proof (Hb _ _ Hl) as Hlast.
  assert (length (element_set m') = Nat.pred (length (element_set m))) as Hlen.
  { simpl. rewrite length_insert, length_take. lia. }
  split; [split|split].
  - intros k' i' Hk'. simpl in Hk'.
    apply lookup_delete_Some in Hk' as [_ Hk'].
    apply lookup_insert_Some in Hk' as [[_ <-]|[_ Hk']]; [|by eapply Ht].
    by eapply Ht.
  - unfold vec_size in *. lia.
  - intros k' i' Hk'. simpl in Hk'.
    apply lookup_delete_Some in Hk' as [Hkk' Hk']. unfold vec_size. rewrite Hlen.
    apply lookup_insert_Some in Hk' as [[<- <-]|[Hlk' Hk']].
    + assert (i ≠ Z.of_nat (Nat.pred (length (element_set m)))).
      { intros ->. rewrite Nat2Z.id in Hi. congruence. }
      split; [lia|]. simpl.
      rewrite list_lookup_insert_eq by (rewrite length_take; lia). done.
    + destruct (index_sound_lookup _ _ _ Hs Hk') as (e' & ? & He' & Hkey').
      pose proof (lookup_lt_Some _ _ _ He').
      assert (i' ≠ Z.of_nat (Nat.pred (length (element_set m)))).
      { intros ->. rewrite Nat2Z.id in He'. congruence. }
      assert (i' ≠ i) by (intros ->; congruence).
      split; [lia|]. simpl.
      rewrite list_lookup_insert_ne by lia.
      rewrite lookup_take_lt by lia. by rewrite He'; simpl; f_equal.
  - unfold vec_size in *. rewrite Hlen. simpl.
    rewrite map_size_delete_Some, map_size_insert_Some by
      (rewrite ?lookup_insert; try case_decide; eauto).
    lia.
Qed.

Lemma find_stored m k : invariant m → find k m = Normal (stored m k).
Proof.
  intros [Hs _]. unfold find, find_index, stored.
  destruct (index_map m !! k) as [i|] eqn:Hk; [|done].
  destruct (index_sound_lookup _ _ _ Hs Hk) as (e & ? & He & _).
  rewrite (vec_at_slot _ _ _ H0 He). simpl. by rewrite He.
Qed.

Lemma remove_spec m k :
  well_typed m → invariant m →
  ∃ m', remove (Outside k) m = Normal m'
        ∧ well_typed m' ∧ invariant m'
        ∧ index_map m' !! k = None
        ∧ (∀ k', k' ≠ k → stored m' k' = stored m k')
        ∧ size m' = size m - (match index_map m !! k with Some _ => 1 | None => 0 end)
        ∧ random_number_generator m' = random_number_generator m.
Proof.
  intros Hwt Hinv.
  destruct (index_map m !! k) as [i|] eqn:Hk; last first.
  { exists m. rewrite remove_absent by done. split_and!; try done. lia. }
  pose proof (invariant_slots_indexed _ Hinv) as Hb.
  pose proof Hinv as [Hs _].
  destruct (index_sound_lookup _ _ _ Hs Hk) as (e_i & Hi0 & Hi & Hkey).
  pose proof (lookup_lt_Some _ _ _ Hi) as Hlt.
  destruct (lookup_lt_is_Some_2 (element_set m) (Nat.pred (length (element_set m))))
    as [e_l Hl]; [lia|].
  pose proof (Hb _ _ Hl) as Hlast.
  destruct (remove_present_invariant _ _ _ _ Hwt Hinv Hk Hl) as [Hwt' Hinv'].
  eexists. split; [by apply remove_present|].
  split_and!; try done.
  - simpl. apply lookup_delete_eq.
  - intros k' Hk'. unfold stored. simpl.
    rewrite lookup_delete_ne by done.
    destruct (decide (key e_l = k')) as [<-|Hlk'].
    + rewrite lookup_insert_eq, Hlast. simpl.
      assert (i ≠ Z.of_nat (Nat.pred (length (element_set m)))).
      { intros ->. rewrite Nat2Z.id in Hi. congruence. }
      rewrite list_lookup_insert_eq by (rewrite length_take; lia).
      by rewrite Nat2Z.id, Hl.
    + rewrite lookup_insert_ne by done.
      destruct (index_map m !! k') as [i'|] eqn:Hi'; [simpl|done].
      destruct (index_sound_lookup _ _ _ Hs Hi') as (e' & ? & He' & Hkey').
      pose proof (lookup_lt_Some _ _ _ He').
      assert (i' ≠ Z.of_nat (Nat.pred (length (element_set m)))).
      { intros ->. rewrite Nat2Z.id in He'. congruence. }
      assert (i' ≠ i) by (intros ->; congruence).
      rewrite list_lookup_insert_ne by lia.
      by rewrite lookup_take_lt by lia.
  - unfold size, vec_size. simpl. rewrite length_insert, length_take. lia.
Qed.

(** [insert] is [remove] followed by an append; the key is indexed under
    the new slot number reduced to 32 bits. *)
Lemma insert_unfold m k v :
  well_typed m → invariant m →
  ∃ m1, remove (Outside k) m = Normal m1
        ∧ well_typed m1 ∧ invariant m1 ∧ index_map m1 !! k = None
        ∧ (∀ k', k' ≠ k → stored m1 k' = stored m k')
        ∧ size m1 = size m - (match index_map m !! k with Some _ => 1 | None => 0 end)
        ∧ random_number_generator m1 = random_number_generator m
        ∧ insert (Outside k) (Outside v) m =
            Normal {| element_set := element_set m1 ++ [ {| key := k; value := v |} ];
                      index_map := <[k := wrap 32 (size m1)]> (index_map m1);
                      random_number_generator := random_number_generator m |}.
Proof.
  intros Hwt Hinv.
  destruct (remove_spec m k Hwt Hinv) as (m1 & Hrm & Hwt1 & Hinv1 & Hk1 & Hst & Hsz & Hg).
  exists m1. split_and!; try done.
  rewrite insert_outside, Hrm. cbn. unfold umap_insert. rewrite Hk1, Hg.
  pose proof (invariant_capacity _ Hwt1 Hinv1). pose proof (vec_size_nonneg (element_set m1)).
  do 3 f_equal. unfold size in *. rewrite vec_size_snoc.
  rewrite (wrap_small 64) by lia. f_equal. lia.
Qed.

Lemma append_invariant m k v :
  well_typed m → invariant m → index_map m !! k = None → size m < 2 ^ 32 →
  let m' := {| element_set := element_set m ++ [ {| key := k; value := v |} ];
               index_map := <[k := wrap 32 (size m)]> (index_map m);
               random_number_generator := random_number_generator m |} in
  well_typed m' ∧ invariant m'
  ∧ index_map m' !! k = Some (size m' - 1)
  ∧ stored m' k = Some v
  ∧ (∀ k', k' ≠ k → stored m' k' = stored m k').
Proof.
  intros [Ht Hsz] [Hs Hsize] Hk Hcap m'. subst m'.
  unfold size, stored, well_typed, invariant, index_sound in *.
  cbn [element_set index_map random_number_generator].
  rewrite !vec_size_snoc, wrap_small by (unfold vec_size in *; lia).
  assert (Z.to_nat (vec_size (element_set m)) = length (element_set m)) as Hn
    by (unfold vec_size; lia).
  split; [|split; [|split; [|split]]].
  - split; [|lia].
    apply map_Forall_insert_2; [unfold vec_size; lia|done].
  - split.
    + apply map_Forall_insert_2.
      * split; [unfold vec_size; lia|].
        rewrite Hn, lookup_app_r, Nat.sub_diag by done. done.
      * intros k' i' Hk'. destruct (Hs k' i' Hk') as [? He].
        split; [lia|].
        rewrite lookup_app_l by (unfold vec_size in *; lia). done.
    + rewrite map_size_insert_None by done. lia.
  - rewrite lookup_insert_eq. f_equal. lia.
  - rewrite lookup_insert_eq. simpl.
    rewrite Hn, lookup_app_r, Nat.sub_diag by done. done.
  - intros k' Hk'. rewrite lookup_insert_ne by done.
    destruct (index_map m !! k') as [i'|] eqn:Hi'; [simpl|done].
    destruct (Hs k' i' Hi') as [? He].
    rewrite lookup_app_l by (unfold vec_size in *; lia). done.
Qed.

End facts.

(** ** Calls on references

    What [remove] and [insert] do when their arguments are read through
    any reference, into the container or not. *)
Section places.
Context {K V : Type} `{Countable K} {G : Type}.
Implicit Types (m : t K V G) (k : K) (v : V) (key_ref : place K V K)
  (value_ref : place K V V).








End places.

Section runs.
Context {K V : Type} `{Countable K} {G : Type}.
Implicit Types (m : t K V G) (k : K) (v : V) (i : Z) (o : op K V) (ops : list (op K V)).

(** Under the invariant no call has undefined behaviour. *)
Lemma step_total m o :
  well_typed m → invariant m → ∃ m', step o m = Normal m'.
Proof.
  intros Hwt Hinv. destruct o as [k v|k|k]; simpl.
  - destruct (insert_unfold m k v Hwt Hinv) as (m1 & _ & _ & _ & _ & _ & _ & _ & ->). eauto.
  - destruct (remove_spec m k Hwt Hinv) as (m' & -> & _). eauto.
  - rewrite find_stored by done. simpl. eauto.
Qed.

(** One call within capacity: the invariant is kept, and the stored values
    change as the call says. *)
Lemma step_spec m o m' :
  well_typed m → invariant m → step o m = Normal m' → size m' ≤ 2 ^ 32 →
  well_typed m' ∧ invariant m'
  ∧ ∀ k, stored m' k =
         match o with
         | Insert k' v => if decide (k' = k) then Some v else stored m k
         | Remove k' => if decide (k' = k) then None else stored m k
         | Find _ => stored m k
         end.
Proof.
  intros Hwt Hinv Hstep Hcap. destruct o as [k v|k|k]; simpl in Hstep.
  - destruct (insert_unfold m k v Hwt Hinv)
      as (m1 & _ & Hwt1 & Hinv1 & Hk1 & Hst & _ & Hg & Hins).
    rewrite Hins in Hstep. injection Hstep as <-.
    unfold size in Hcap. simpl in Hcap. rewrite vec_size_snoc in Hcap.
    destruct (append_invariant m1 k v Hwt1 Hinv1 Hk1) as (Hwt' & Hinv' & _ & Hkv & Hother);
      [unfold size; lia|].
    rewrite <-Hg. split_and!; try done.
    intros k'. case_decide as Hk; [by subst|].
    rewrite Hother by done. by apply Hst.
  - destruct (remove_spec m k Hwt Hinv) as (m1 & Hrm & Hwt1 & Hinv1 & Hk1 & Hst & _).
    rewrite Hrm in Hstep. injection Hstep as <-.
    split_and!; try done.
    intros k'. case_decide as Hk; [|by apply Hst].
    subst. unfold stored. by rewrite Hk1.
  - rewrite find_stored in Hstep by done. simpl in Hstep. injection Hstep as <-.
    done.
Qed.

Lemma runs_within_capacity_spec g ops m :
  runs_within_capacity g ops m →
  well_typed m ∧ invariant m ∧ ∀ k, stored m k = last_write k ops.
Proof.
  induction 1 as [|ops o m m' _ (Hwt & Hinv & Hst) Hstep Hcap].
  - repeat split; try done; apply map_Forall_empty.
  - destruct (step_spec _ _ _ Hwt Hinv Hstep Hcap) as (? & ? & Hst').
    split_and!; try done.
    intros k. rewrite Hst'. unfold last_write. rewrite foldl_app. simpl.
    fold (last_write k ops). rewrite <-Hst. by destruct o.
Qed.

Lemma runs_within_capacity_reachable g ops m :
  runs_within_capacity g ops m → reachable m.
Proof. induction 1; eauto using @reachable. Qed.
End runs.
Section fresh.
Context {K V : Type} `{Countable K} {G : Type}.
Implicit Types (m : t K V G) (k : K) (v : V).

(** Inserting a key that is not indexed appends it, in every state. *)
Lemma insert_fresh m k v :
  index_map m !! k = None → size m < 2 ^ 64 →
  insert (Outside k) (Outside v) m =
    Normal {| element_set := element_set m ++ [ {| key := k; value := v |} ];
              index_map := <[k := wrap 32 (size m)]> (index_map m);
              random_number_generator := random_number_generator m |}.
Proof.
  intros Hk Hsz. rewrite insert_outside, remove_absent by done. cbn.
  unfold umap_insert. rewrite Hk. rewrite vec_size_snoc.
  pose proof (vec_size_nonneg (element_set m)). unfold size in *.
  rewrite (wrap_small 64) by lia. do 4 f_equal. lia.
Qed.
End fresh.

(** The shape of [fill n]: key [i] sits at slot [i], and is indexed under
    [i] reduced to 32 bits. *)
Lemma fill_spec n :
  (n < 2 ^ 64)%N →
  ∃ m, fill n = Normal m
       ∧ reachable m ∧ well_typed m
       ∧ size m = Z.of_N n
       ∧ (∀ i, (i < n)%N → element_set m !! N.to_nat i = Some {| key := i; value := i |})
       ∧ (∀ k, index_map m !! k
               = if (k <? n)%N then Some (wrap 32 (Z.of_N k)) else None).
Proof.
  induction n as [|n IH] using N.peano_ind; intros Hn.
  { exists (empty 0). split; [done|]. split; [constructor|].
    split; [split; [apply map_Forall_empty|unfold vec_size; simpl; lia]|].
    split; [done|]. split; [intros; lia|].
    intros k. by destruct (N.ltb_spec k 0); [lia|]. }
  destruct IH as (m & Hfill & Hreach & [Ht Hsz] & Hsize & Hslots & Hidx); [lia|].
  assert (index_map m !! n = None) as Hfresh by (by rewrite Hidx, N.ltb_irrefl).
  unfold fill in *. rewrite N.peano_rect_succ, Hfill. cbn [mbind outcome_bind].
  rewrite insert_fresh by (done || lia).
  eexists. split; [done|]. split_and!.
  - eapply (reachable_step (Insert n n)); [done|]. simpl.
    by rewrite insert_fresh by (done || lia).
  - split; cbn [index_map element_set].
    + apply map_Forall_insert_2; [|done]. apply wrap_range. lia.
    + rewrite vec_size_snoc. unfold size in *. lia.
  - unfold size in *. cbn [element_set]. rewrite vec_size_snoc. lia.
  - intros i Hi. cbn [element_set].
    assert (length (element_set m) = N.to_nat n) as Hlen
      by (unfold size, vec_size in *; lia).
    destruct (decide (i = n)) as [->|Hne].
    + by rewrite lookup_app_r, Hlen, Nat.sub_diag by lia.
    + rewrite lookup_app_l by lia. apply Hslots. lia.
  - intros k. cbn [index_map]. rewrite Hsize.
    destruct (decide (k = n)) as [->|Hne].
    + rewrite lookup_insert_eq.
      by destruct (N.ltb_spec n (N.succ n)); [|lia].
    + rewrite lookup_insert_ne, Hidx by done.
      destruct (N.ltb_spec k n), (N.ltb_spec k (N.succ n)); try done; lia.
Qed.
(** Up to [2^32] keys the filled container satisfies the invariant. *)
Lemma fill_invariant n :
  (n ≤ 2 ^ 32)%N →
  ∃ m, fill n = Normal m ∧ well_typed m ∧ invariant m ∧ size m = Z.of_N n.
Proof.
  induction n as [|n IH] using N.peano_ind; intros Hn.
  { exists (empty 0). split; [done|]. split; [|done].
    split; [apply map_Forall_empty|unfold vec_size; simpl; lia]. }
  destruct IH as (m & Hfill & Hwt & Hinv & Hsize); [lia|].
  destruct (fill_spec n) as (m0 & Hfill0 & _ & _ & _ & _ & Hidx); [lia|].
  assert (m0 = m) as -> by congruence.
  assert (index_map m !! n = None) as Hfresh by (by rewrite Hidx, N.ltb_irrefl).
  destruct (append_invariant m n n Hwt Hinv Hfresh) as (Hwt' & Hinv' & _); [lia|].
  unfold fill in *. rewrite N.peano_rect_succ, Hfill. cbn [mbind outcome_bind].
  rewrite insert_fresh by (done || lia).
  eexists. split; [done|]. split_and!; try done.
  unfold size in *. cbn [element_set]. rewrite vec_size_snoc. lia.
Qed.

(** Closed hypotheses of examples are settled by their decision
    procedures. *)
Ltac decide_by_computation := apply (bool_decide_unpack _); vm_compute; exact I.

(** ** The run of [main]

    The assertions of [main] (lines 136-153) hold on the embedding. *)
Example main_assertions :
  let m0 : t string string Z := empty 0 in
  find "Hello World" m0 = Normal None
  ∧ (m ← insert (Outside "hello") (Outside "world") m0; find "hello" m) = Normal (Some "world")
  ∧ (m ← insert (Outside "hello") (Outside "world") m0;
     m ← insert (Outside "hello2") (Outside "world2") m;
     m ← insert (Outside "hello3") (Outside "world3") m;
     m ← remove (Outside "hello") m;
     m ← remove (Outside "blubsi") m;
     h2 ← find "hello2" m; h3 ← find "hello3" m; h ← find "hello" m;
     m ← insert (Outside "hello3") (Outside "world4") m;
     h3' ← find "hello3" m;
     mret (h2, h3, h, h3', size m))
    = Normal (Some "world2", Some "world3", None, Some "world4", 2).
Proof. by vm_compute. Qed.

(** ** The invariant over reachable states *)

(** C1, as stated, fails: slot numbers are [uint32_t].  After
    [insert(0, 0)], ..., [insert(2^32, 2^32)] on the empty container, key
    [2^32] is indexed under slot [0], which holds key [0].  Every argument
    of these calls is an object outside the container. *)
Lemma invariant_fails_beyond_capacity :
  ∃ m, fill 4294967297 = Normal m ∧ reachable m ∧ well_typed m ∧ ¬ invariant m.
Proof.
  destruct (fill_spec 4294967297) as (m & Hfill & Hreach & Hwt & _ & Hslots & Hidx);
    [reflexivity|].
  exists m. split; [exact Hfill|]. clear Hfill.
  split; [exact Hreach|]. split; [exact Hwt|].
  intros [Hs _].
  specialize (Hidx 4294967296%N). specialize (Hslots 0%N eq_refl).
  change (index_map m !! 4294967296%N = Some 0) in Hidx.
  destruct (Hs _ _ Hidx) as [_ Hkey].
  change (Z.to_nat 0) with (N.to_nat 0) in Hkey. rewrite Hslots in Hkey.
  discriminate Hkey.
Qed.

(** C1 fails in a second way: [remove] reads its [const K &key] again
    after the swap.  After [insert(5, 50)], [insert(6, 60)],
    [insert(7, 70)], the call [remove(element_set[0].key)] finds key [5],
    moves [(7, 70)] into slot [0] and then erases the key it reads there,
    [7]: key [5] stays indexed under slot [0], which holds key [7]. *)
Lemma invariant_fails_on_aliased_remove :
  ∃ m m' : t N N Z,
    runs_within_capacity 0 [Insert 5%N 50%N; Insert 6%N 60%N; Insert 7%N 70%N] m
    ∧ read (InElement 0 key) m = Normal 5%N
    ∧ remove (InElement 0 key) m = Normal m'
    ∧ well_typed m'
    ∧ ¬ invariant m'.
Proof.
  exists {| element_set := [ {| key := 5%N; value := 50%N |};
                             {| key := 6%N; value := 60%N |};
                             {| key := 7%N; value := 70%N |} ];
            index_map := {[ 5%N := 0; 6%N := 1; 7%N := 2 ]};
            random_number_generator := 0 |},
         {| element_set := [ {| key := 7%N; value := 70%N |};
                             {| key := 6%N; value := 60%N |} ];
            index_map := {[ 5%N := 0; 6%N := 1 ]};
            random_number_generator := 0 |}.
  split.
  { change [Insert 5%N 50%N; Insert 6%N 60%N; Insert 7%N 70%N]
      with ((([] ++ [Insert 5%N 50%N]) ++ [Insert 6%N 60%N]) ++ [@Insert N N 7%N 70%N]).
    eapply runs_snoc; [eapply runs_snoc; [eapply runs_snoc; [apply runs_nil|..]|..]|..].
    all: try (vm_compute; reflexivity).
    all: vm_compute; discriminate. }
  split; [vm_compute; reflexivity|].
  split; [vm_compute; reflexivity|].
  split; [decide_by_computation|].
  intros Hinv%(bool_decide_pack _). vm_compute in Hinv. exact Hinv.
Qed.

(** C1, amended: in every state produced from the empty container by a
    finite sequence of [insert], [remove] and [find] calls whose arguments
    are objects outside the container, and during which the dense store
    never holds more than [2^32] entries, every key [k] of the position
    index with [P[k] = i] has [i] a valid slot of the dense store with
    [S[i].key = k], and the position index has as many entries as the dense
    store. *)
Theorem invariant_within_capacity {K V : Type} `{Countable K} {G : Type}
    (g : G) (ops : list (op K V)) (m : t K V G) :
  runs_within_capacity g ops m →
  (∀ k i, index_map m !! k = Some i →
          (0 ≤ i < size m) ∧ key <$> element_set m !! Z.to_nat i = Some k)
  ∧ Z.of_nat (base.size (index_map m)) = size m.
Proof.
  intros Hruns.
  destruct (runs_within_capacity_spec _ _ _ Hruns) as (_ & Hinv & _).
  exact Hinv.
Qed.

(** The state after [insert(1, 10)], [insert(2, 20)], [remove(1)]. *)
Lemma invariant_within_capacity_witness :
  let m : t N N Z :=
    {| element_set := [ {| key := 2%N; value := 20%N |} ];
       index_map := {[ 2%N := 0 ]};
       random_number_generator := 0 |} in
  runs_within_capacity 0 [Insert 1%N 10%N; Insert 2%N 20%N; Remove 1%N] m
  ∧ ((∀ k i, index_map m !! k = Some i →
             (0 ≤ i < size m) ∧ key <$> element_set m !! Z.to_nat i = Some k)
     ∧ Z.of_nat (base.size (index_map m)) = size m).
Proof.
  intros m.
  assert (runs_within_capacity 0 [Insert 1%N 10%N; Insert 2%N 20%N; Remove 1%N] m)
    as Hruns.
  { change [Insert 1%N 10%N; Insert 2%N 20%N; Remove 1%N]
      with ((([] ++ [Insert 1%N 10%N]) ++ [Insert 2%N 20%N]) ++ [@Remove N N 1%N]).
    eapply runs_snoc; [eapply runs_snoc; [eapply runs_snoc; [apply runs_nil|..]|..]|..].
    all: try (vm_compute; reflexivity).
    all: vm_compute; discriminate. }
  split; [exact Hruns|].
  exact (invariant_within_capacity 0 _ m Hruns).
Defined.

(** ** Removal *)

(** C3, as stated, fails when the key is passed as a reference into the
    dense store: [index_map.erase(key)] (line 106) reads [key] after the
    swap.  On [(5, 50), (6, 60), (7, 70)] the call
    [remove(element_set[0].key)] removes key [5], present at slot [0]: the
    entry [(7, 70)] is moved into slot [0], but then key [7] is erased from
    the position index and key [5] stays indexed under slot [0]. *)
Lemma remove_aliased_key_stays_indexed :
  let m : t N N Z :=
    {| element_set := [ {| key := 5%N; value := 50%N |};
                        {| key := 6%N; value := 60%N |};
                        {| key := 7%N; value := 70%N |} ];
       index_map := {[ 5%N := 0; 6%N := 1; 7%N := 2 ]};
       random_number_generator := 0 |} in
  well_typed m ∧ invariant m
  ∧ read (InElement 0 key) m = Normal 5%N
  ∧ index_map m !! 5%N = Some 0
  ∧ ∃ m', remove (InElement 0 key) m = Normal m'
          ∧ element_set m' = [ {| key := 7%N; value := 70%N |};
                               {| key := 6%N; value := 60%N |} ]
          ∧ index_map m' !! 5%N = Some 0
          ∧ index_map m' !! 7%N = None.
Proof.
  intros m.
  split; [decide_by_computation|]. split; [decide_by_computation|].
  split; [vm_compute; reflexivity|]. split; [vm_compute; reflexivity|].
  eexists. split; [vm_compute; reflexivity|].
  split; [reflexivity|]. split; vm_compute; reflexivity.
Qed.

(** C3, amended: in a state that satisfies the invariant, [remove(k)] of a
    key [k] present at slot [i], passed as an object outside the container,
    returns; [k] is erased from the position index and the dense store is
    one entry shorter.  If [i] is the last slot the last entry is dropped
    and no other key's slot changes; otherwise the entry of the last slot is
    moved into slot [i] and its key is indexed under [i], the slots of all
    further keys being unchanged.  Removing the only entry leaves the dense
    store and the position index empty. *)
Theorem remove_swap_and_pop {K V : Type} `{Countable K} {G : Type}
    (m : t K V G) (k : K) (i : Z) :
  well_typed m → invariant m → index_map m !! k = Some i →
  ∃ m', remove (Outside k) m = Normal m'
        ∧ index_map m' !! k = None
        ∧ size m' = size m - 1
        ∧ (i = size m - 1 →
           element_set m' = take (Z.to_nat (size m - 1)) (element_set m)
           ∧ ∀ k', k' ≠ k → index_map m' !! k' = index_map m !! k')
        ∧ (i ≠ size m - 1 →
           ∃ e_last,
             element_set m !! Z.to_nat (size m - 1) = Some e_last
             ∧ element_set m' =
                 <[Z.to_nat i := e_last]>
                   (take (Z.to_nat (size m - 1)) (element_set m))
             ∧ index_map m' !! key e_last = Some i
             ∧ ∀ k', k' ≠ k → k' ≠ key e_last →
                     index_map m' !! k' = index_map m !! k')
        ∧ (size m = 1 → element_set m' = [] ∧ index_map m' = ∅).
Proof.
  intros Hwt Hinv Hk.
  pose proof (invariant_slots_indexed _ Hinv) as Hb.
  pose proof Hinv as [Hs _].
  destruct (index_sound_lookup _ _ _ Hs Hk) as (e_i & Hi0 & Hi & Hkey).
  pose proof (lookup_lt_Some _ _ _ Hi) as Hlt.
  destruct (lookup_lt_is_Some_2 (element_set m) (Nat.pred (length (element_set m))))
    as [e_l Hl]; [lia|].
  pose proof (Hb _ _ Hl) as Hlast.
  destruct (remove_present_invariant _ _ _ _ Hwt Hinv Hk Hl) as [Hwt' [_ Hsize']].
  assert (Z.to_nat (size m - 1) = Nat.pred (length (element_set m))) as ->
    by (unfold size, vec_size; lia).
  eexists. split; [by apply remove_present|].
  cbn [element_set index_map] in *.
  assert (length (<[Z.to_nat i:=e_l]>
                    (take (Nat.pred (length (element_set m))) (element_set m)))
          = Nat.pred (length (element_set m))) as Hlen
    by (rewrite length_insert, length_take; lia).
  split; [apply lookup_delete_eq|].
  split; [unfold size, vec_size; cbn [element_set]; lia|].
  split; [|split].
  - intros ->. unfold size, vec_size in *.
    assert (Z.to_nat (Z.of_nat (length (element_set m)) - 1)
            = Nat.pred (length (element_set m))) as Hj by lia.
    rewrite Hj in *. assert (e_l = e_i) as -> by congruence.
    split; [by rewrite list_insert_ge by (rewrite length_take; lia)|].
    intros k' Hk'. rewrite lookup_delete_ne, lookup_insert_ne by congruence. done.
  - intros Hne. exists e_l. split; [done|]. split; [done|].
    assert (key e_l ≠ k).
    { intros <-. rewrite Hlast in Hk. injection Hk as <-.
      unfold size, vec_size in Hne. lia. }
    split; [by rewrite lookup_delete_ne, lookup_insert_eq|].
    intros k' ??. by rewrite lookup_delete_ne, lookup_insert_ne.
  - intros Hone. unfold size, vec_size in *.
    split; [apply nil_length_inv; lia|].
    apply map_size_empty_inv. lia.
Qed.

(** Removing the first of three entries moves the third into its slot. *)
Lemma remove_swap_and_pop_witness :
  let m : t N N Z :=
    {| element_set := [ {| key := 5%N; value := 50%N |};
                        {| key := 6%N; value := 60%N |};
                        {| key := 7%N; value := 70%N |} ];
       index_map := {[ 5%N := 0; 6%N := 1; 7%N := 2 ]};
       random_number_generator := 0 |} in
  well_typed m ∧ invariant m ∧ index_map m !! 5%N = Some 0
  ∧ ∃ m', remove (Outside 5%N) m = Normal m'
          ∧ index_map m' !! 5%N = None
          ∧ element_set m' = [ {| key := 7%N; value := 70%N |};
                               {| key := 6%N; value := 60%N |} ]
          ∧ index_map m' !! 7%N = Some 0
          ∧ index_map m' !! 6%N = Some 1.
Proof.
  intros m.
  assert (well_typed m) as Hwt by decide_by_computation.
  assert (invariant m) as Hinv by decide_by_computation.
  assert (index_map m !! 5%N = Some 0) as Hk by (vm_compute; reflexivity).
  split; [exact Hwt|]. split; [exact Hinv|]. split; [exact Hk|].
  destruct (remove_swap_and_pop m 5%N 0 Hwt Hinv Hk)
    as (m' & Hrm & Hgone & _ & _ & Hswap & _).
  destruct Hswap as (e_last & Hlast & Hes & Hidx & Hother); [vm_compute; discriminate|].
  exists m'. split; [exact Hrm|]. split; [exact Hgone|].
  vm_compute in Hlast. injection Hlast as <-.
  split; [exact Hes|]. split; [exact Hidx|].
  rewrite Hother by discriminate. vm_compute. reflexivity.
Defined.

(** ** Lookup *)

Section last_write_facts.
Context {K V : Type} `{Countable K}.
Implicit Types (k : K) (v : V) (ops : list (op K V)).

Lemma last_write_snoc k ops o :
  last_write k (ops ++ [o]) =
    match o with
    | Insert k' v => if decide (k' = k) then Some v else last_write k ops
    | Remove k' => if decide (k' = k) then None else last_write k ops
    | Find _ => last_write k ops
    end.
Proof. unfold last_write. rewrite foldl_app. simpl. by destruct o. Qed.

Lemma last_write_untouched k ops1 ops2 :
  untouched k ops2 → last_write k (ops1 ++ ops2) = last_write k ops1.
Proof.
  induction ops2 as [|o ops2 IH] using rev_ind; intros Hun.
  { by rewrite app_nil_r. }
  unfold untouched in *. rewrite Forall_app, Forall_singleton in Hun.
  destruct Hun as [Hun Ho].
  rewrite app_assoc, last_write_snoc, IH by done.
  destruct o; by try case_decide.
Qed.
End last_write_facts.

(** C4, as stated, fails: after [insert(0, 0)], ..., [insert(2^32 - 1,
    2^32 - 1)] the call [insert(2^32, 7)] indexes key [2^32] under slot
    [0], and [find(2^32)] returns the value [0] stored there, not [7].
    Every argument of these calls is an object outside the container. *)
Lemma find_after_insert_beyond_capacity :
  (m ← fill 4294967296; m ← insert (Outside 4294967296%N) (Outside 7%N) m; find 4294967296%N m)
  = Normal (Some 0%N).
Proof.
  destruct (fill_spec 4294967296) as (m & -> & _ & _ & Hsize & Hslots & Hidx);
    [reflexivity|].
  specialize (Hidx 4294967296%N). specialize (Hslots 0%N eq_refl).
  change (index_map m !! 4294967296%N = None) in Hidx.
  cbn [mbind outcome_bind]. rewrite insert_fresh by (exact Hidx || lia).
  cbn [mbind outcome_bind]. unfold find, find_index. cbn [index_map element_set].
  rewrite lookup_insert_eq, Hsize.
  change (wrap 32 (Z.of_N 4294967296)) with 0.
  rewrite (vec_at_slot _ 0 {| key := 0%N; value := 0%N |});
    [reflexivity|reflexivity|].
  apply lookup_app_l_Some. exact Hslots.
Qed.

(** C4 fails in a second way, for a [remove] whose key is a reference
    into the dense store: after [insert(5, 50)], [insert(6, 60)],
    [insert(7, 70)] and [remove(element_set[0].key)], where the key read at
    the call is [5], [find(5)] returns [70] and not the not-found result. *)
Lemma find_after_aliased_remove :
  (m ← insert (Outside 5%N) (Outside 50%N) (empty 0);
   m ← insert (Outside 6%N) (Outside 60%N) m;
   m ← insert (Outside 7%N) (Outside 70%N) m;
   k ← read (InElement 0 key) m;
   m ← remove (InElement 0 key) m;
   r ← find 5%N m;
   mret (k, r)) = Normal (5%N, Some 70%N).
Proof. vm_compute. reflexivity. Qed.

(** C4, amended: after any sequence of [insert], [remove] and [find] calls
    on the empty container whose arguments are objects outside the
    container, and during which the dense store never holds more than
    [2^32] entries, [find(k)] returns, without aborting, what the last call
    on [k] left: [v] if that call was [insert(k, v)], whatever calls on
    other keys followed, and not-found if it was [remove(k)] or if [k] was
    never inserted. *)
Theorem find_last_write_within_capacity {K V : Type} `{Countable K} {G : Type}
    (g : G) (ops : list (op K V)) (m : t K V G) (k : K) :
  runs_within_capacity g ops m →
  find k m = Normal (last_write k ops)
  ∧ (∀ ops1 v ops2, ops = ops1 ++ Insert k v :: ops2 → untouched k ops2 →
                    find k m = Normal (Some v))
  ∧ (∀ ops1 ops2, ops = ops1 ++ Remove k :: ops2 → untouched k ops2 →
                  find k m = Normal None)
  ∧ (untouched k ops → find k m = Normal None).
Proof.
  intros Hruns.
  destruct (runs_within_capacity_spec _ _ _ Hruns) as (_ & Hinv & Hst).
  rewrite find_stored, Hst by done.
  split; [done|]. split; [|split].
  - intros ops1 v ops2 -> Hun.
    rewrite (cons_middle _ ops1 ops2), app_assoc, last_write_untouched by done.
    rewrite last_write_snoc. by case_decide.
  - intros ops1 ops2 -> Hun.
    rewrite (cons_middle _ ops1 ops2), app_assoc, last_write_untouched by done.
    rewrite last_write_snoc. by case_decide.
  - intros Hun. by rewrite <-(app_nil_l ops), last_write_untouched.
Qed.

(** Lookups after [insert(1, 10)], [insert(2, 20)], [insert(1, 11)],
    [find(3)]. *)
Lemma find_last_write_within_capacity_witness :
  let m : t N N Z :=
    {| element_set := [ {| key := 2%N; value := 20%N |};
                        {| key := 1%N; value := 11%N |} ];
       index_map := {[ 2%N := 0; 1%N := 1 ]};
       random_number_generator := 0 |} in
  let ops := [Insert 1%N 10%N; Insert 2%N 20%N; Insert 1%N 11%N; Find 3%N] in
  runs_within_capacity 0 ops m
  ∧ find 1%N m = Normal (Some 11%N)
  ∧ find 2%N m = Normal (Some 20%N)
  ∧ find 3%N m = Normal None.
Proof.
  intros m ops.
  assert (runs_within_capacity 0 ops m) as Hruns.
  { change ops with (((([] ++ [Insert 1%N 10%N]) ++ [Insert 2%N 20%N])
                       ++ [Insert 1%N 11%N]) ++ [@Find N N 3%N]).
    eapply runs_snoc;
      [eapply runs_snoc;
         [eapply runs_snoc; [eapply runs_snoc; [apply runs_nil|..]|..]|..]|..].
    all: try (vm_compute; reflexivity).
    all: vm_compute; discriminate. }
  split; [exact Hruns|].
  split; [|split].
  - destruct (find_last_write_within_capacity 0 ops m 1%N Hruns) as [-> _].
    vm_compute. reflexivity.
  - destruct (find_last_write_within_capacity 0 ops m 2%N Hruns) as (_ & Hins & _).
    apply (Hins [Insert 1%N 10%N] 20%N [Insert 1%N 11%N; Find 3%N]); [reflexivity|].
    repeat constructor; discriminate.
  - destruct (find_last_write_within_capacity 0 ops m 3%N Hruns) as (_ & _ & _ & Hnone).
    apply Hnone. repeat constructor; discriminate.
Defined.

(** ** Size *)



(** ** Overwriting *)

Section overwriting.
Context {K V : Type} `{Countable K} {G : Type}.
Implicit Types (m : t K V G) (k : K) (v : V).

(** One [insert] of a key that is present. *)
Lemma insert_present m k v :
  well_typed m → invariant m → is_Some (index_map m !! k) →
  ∃ m', insert (Outside k) (Outside v) m = Normal m'
        ∧ find k m' = Normal (Some v)
        ∧ size m' = size m
        ∧ index_map m' !! k = Some (size m' - 1)
        ∧ element_set m' !! Z.to_nat (size m' - 1)
          = Some {| key := k; value := v |}
        ∧ (∀ j e, element_set m' !! j = Some e → key e = k →
                  Z.of_nat j = size m' - 1)
        ∧ well_typed m' ∧ invariant m'.
Proof.
  intros Hwt Hinv [i Hk].
  destruct (insert_unfold m k v Hwt Hinv)
    as (m1 & _ & Hwt1 & Hinv1 & Hk1 & _ & Hsize & Hg & Hins).
  rewrite Hk in Hsize. rewrite <-Hg in Hins.
  pose proof (invariant_capacity _ Hwt Hinv) as Hcap.
  destruct (append_invariant m1 k v Hwt1 Hinv1 Hk1) as (Hwt' & Hinv' & Hidx & Hst & _);
    [lia|].
  eexists. split; [exact Hins|].
  pose proof (invariant_slots_indexed _ Hinv') as Hb.
  cbn [element_set index_map random_number_generator] in *.
  split; [rewrite find_stored by exact Hinv'; by rewrite Hst|].
  assert (size {| element_set := element_set m1 ++ [ {| key := k; value := v |} ];
                  index_map := <[k:=wrap 32 (size m1)]> (index_map m1);
                  random_number_generator := random_number_generator m1 |}
          = size m1 + 1) as Hsz'
    by (unfold size; cbn [element_set]; apply vec_size_snoc).
  unfold size in *. cbn [element_set] in *.
  split; [lia|]. split; [done|]. split; [|split; [|done]].
  - rewrite Hsz'. replace (vec_size (element_set m1) + 1 - 1)
      with (vec_size (element_set m1)) by lia.
    unfold vec_size. by rewrite Nat2Z.id, lookup_app_r, Nat.sub_diag.
  - intros j e Hj <-. apply Hb in Hj. cbn [element_set index_map] in Hj.
    congruence.
Qed.

Lemma insert_each_snoc m k vs v :
  insert_each k (vs ++ [v]) m
  = insert_each k vs m ≫= insert (Outside k) (Outside v).
Proof. unfold insert_each. by rewrite foldl_app. Qed.

(** Any number of further [insert]s of the key. *)
Lemma insert_each_present m k vs :
  well_typed m → invariant m → is_Some (index_map m !! k) →
  ∃ m', insert_each k vs m = Normal m'
        ∧ well_typed m' ∧ invariant m' ∧ is_Some (index_map m' !! k)
        ∧ size m' = size m.
Proof.
  intros Hwt Hinv Hk. induction vs as [|v vs IH] using rev_ind.
  { by exists m. }
  destruct IH as (m1 & Hm1 & Hwt1 & Hinv1 & Hk1 & Hsz1).
  destruct (insert_present m1 k v Hwt1 Hinv1 Hk1)
    as (m' & Hins & _ & Hsz & Hidx & _ & _ & Hwt' & Hinv').
  exists m'. rewrite insert_each_snoc, Hm1. cbn [mbind outcome_bind].
  split; [done|]. split; [done|]. split; [done|]. split; [by eexists|]. lia.
Qed.
End overwriting.

Section stale_index.
Context {K V : Type} `{Countable K} {G : Type}.
Implicit Types (m : t K V G) (k : K) (v : V).

(** [remove] of a key that is indexed under slot [0] while the store has
    further entries: the last entry is moved to slot [0], whatever slot [0]
    held. *)
Lemma remove_indexed_at_front m k j e_l :
  index_map m !! k = Some 0 →
  length (element_set m) = S (S j) →
  element_set m !! S j = Some e_l →
  size m < 2 ^ 64 →
  remove (Outside k) m =
    Normal {| element_set := <[0%nat := e_l]> (take (S j) (element_set m));
              index_map := delete k (<[key e_l := 0]> (index_map m));
              random_number_generator := random_number_generator m |}.
Proof.
  intros Hk Hlen Hl Hsz.
  destruct (lookup_lt_is_Some_2 (element_set m) 0) as [e_0 H0]; [lia|].
  rewrite remove_outside. unfold find_index. rewrite Hk.
  unfold size, vec_size in *. rewrite wrap_small by lia.
  destruct (Z.eqb_spec 0 (Z.of_nat (length (element_set m)) - 1)) as [?|_]; [lia|].
  replace (Z.of_nat (length (element_set m)) - 1) with (Z.of_nat (S j)) by lia.
  unfold vec_swap.
  rewrite (vec_at_slot _ 0 e_0) by (lia || exact H0). cbn [mbind outcome_bind].
  rewrite (vec_at_lookup _ _ _ Hl). cbn [mbind outcome_bind mret outcome_ret].
  rewrite Nat2Z.id. change (Z.to_nat 0) with 0%nat.
  rewrite vec_pop_back_nonempty
    by (intros Hnil%(f_equal length); rewrite !length_insert, Hlen in Hnil;
        discriminate Hnil).
  cbn [mbind outcome_bind]. rewrite !length_insert, Hlen. cbn [Nat.pred].
  rewrite take_insert_ge, take_insert_lt by lia.
  rewrite (vec_at_slot _ 0 e_l)
    by (lia || (apply list_lookup_insert_eq; rewrite length_take; lia)).
  reflexivity.
Qed.

(** If moreover the store then holds [2^32] entries, re-inserting the key
    indexes it under slot [0] again, where the moved entry sits. *)
Lemma insert_indexed_at_front m k v j e_l :
  index_map m !! k = Some 0 →
  length (element_set m) = S (S j) →
  element_set m !! S j = Some e_l →
  Z.of_nat (S j) = 2 ^ 32 →
  (m' ← insert (Outside k) (Outside v) m; find k m')
  = Normal (Some (value e_l)).
Proof.
  intros Hk Hlen Hl Hj.
  rewrite insert_outside, (remove_indexed_at_front m k j e_l)
    by (done || unfold size, vec_size; lia).
  cbn [mbind outcome_bind mret outcome_ret element_set index_map].
  unfold umap_insert. rewrite lookup_delete_eq.
  unfold find, find_index. cbn [index_map element_set]. rewrite lookup_insert_eq.
  rewrite vec_size_snoc. unfold vec_size at 1.
  rewrite length_insert, length_take, Nat.min_l by lia.
  rewrite Hj. change (wrap 32 (wrap 64 (2 ^ 32 + 1 - 1))) with 0.
  rewrite (vec_at_slot _ 0 e_l); [done|lia|].
  apply lookup_app_l_Some, list_lookup_insert_eq. rewrite length_take. lia.
Qed.
End stale_index.

(** C7, as stated, fails on reachable states that do not satisfy the
    invariant.  After [insert(0, 0)], ..., [insert(2^32, 2^32)] key [2^32] is
    present, indexed under slot [0]; [insert(2^32, 7)] moves its entry to
    slot [0], appends [(2^32, 7)] and indexes it under slot [0] again, and
    [find(2^32)] returns the old value [2^32]. *)
Lemma insert_present_beyond_capacity :
  ∃ m, fill 4294967297 = Normal m
       ∧ reachable m ∧ well_typed m
       ∧ is_Some (index_map m !! 4294967296%N)
       ∧ (m' ← insert (Outside 4294967296%N) (Outside 7%N) m;
          find 4294967296%N m') = Normal (Some 4294967296%N).
Proof.
  destruct (fill_spec 4294967297) as (m & Hfill & Hreach & Hwt & Hsize & Hslots & Hidx);
    [reflexivity|].
  exists m. split; [exact Hfill|]. clear Hfill.
  split; [exact Hreach|]. split; [exact Hwt|].
  pose proof (Hidx 4294967296%N) as Hk.
  change (index_map m !! 4294967296%N = Some 0) in Hk.
  pose proof (Hslots 4294967296%N eq_refl) as Hl.
  clear Hslots Hidx Hreach Hwt.
  split; [exists 0; exact Hk|].
  assert (∃ j, N.to_nat 4294967296 = S j ∧ Z.of_nat (S j) = 2 ^ 32) as (j & Ej & Hj).
  { exists (Nat.pred (N.to_nat 4294967296)).
    pose proof (N_nat_Z 4294967296) as Hz.
    change (Z.of_N 4294967296) with (2 ^ 32) in Hz. lia. }
  rewrite Ej in Hl.
  assert (length (element_set m) = S (S j)) as Hlen.
  { unfold size, vec_size in Hsize.
    change (Z.of_N 4294967297) with (2 ^ 32 + 1) in Hsize. lia. }
  exact (insert_indexed_at_front m 4294967296%N 7%N j
           {| key := 4294967296%N; value := 4294967296%N |} Hk Hlen Hl Hj).
Qed.

(** C7 fails in a second way, for an [insert] whose key is a reference into
    the dense store: on [(5, 50), (6, 60), (7, 70)] the call
    [insert(element_set[0].key, 51)] removes key [5], after which the
    reference reads the moved key [7]: the entry appended is [(7, 51)],
    and [find(5)] returns [70]. *)
Lemma insert_aliased_key_stores_moved_key :
  let m : t N N Z :=
    {| element_set := [ {| key := 5%N; value := 50%N |};
                        {| key := 6%N; value := 60%N |};
                        {| key := 7%N; value := 70%N |} ];
       index_map := {[ 5%N := 0; 6%N := 1; 7%N := 2 ]};
       random_number_generator := 0 |} in
  well_typed m ∧ invariant m
  ∧ read (InElement 0 key) m = Normal 5%N
  ∧ ∃ m', insert (InElement 0 key) (Outside 51%N) m = Normal m'
          ∧ element_set m' = [ {| key := 7%N; value := 70%N |};
                               {| key := 6%N; value := 60%N |};
                               {| key := 7%N; value := 51%N |} ]
          ∧ find 5%N m' = Normal (Some 70%N).
Proof.
  intros m.
  split; [decide_by_computation|]. split; [decide_by_computation|].
  split; [vm_compute; reflexivity|].
  eexists. split; [vm_compute; reflexivity|].
  split; [reflexivity|]. vm_compute; reflexivity.
Qed.

(** C7, amended: in a state that satisfies the invariant, [insert(k, v2)]
    of a key [k] already present, with arguments that are objects outside
    the container, returns; afterwards [find(k)] returns [v2], the number
    of entries is unchanged, [k] is indexed under the last slot, the last
    slot holds [(k, v2)], and no other slot holds [k].  The same holds
    after any number of further [insert]s of [k]: the last of them leaves
    [k], with its value, in the last slot. *)
Theorem insert_overwrite_moves_to_tail {K V : Type} `{Countable K} {G : Type}
    (m : t K V G) (k : K) (v2 : V) :
  well_typed m → invariant m → is_Some (index_map m !! k) →
  ∃ m', insert (Outside k) (Outside v2) m = Normal m'
        ∧ find k m' = Normal (Some v2)
        ∧ size m' = size m
        ∧ index_map m' !! k = Some (size m' - 1)
        ∧ element_set m' !! Z.to_nat (size m' - 1)
          = Some {| key := k; value := v2 |}
        ∧ (∀ j e, element_set m' !! j = Some e → key e = k →
                  Z.of_nat j = size m' - 1)
        ∧ invariant m'
        ∧ ∀ vs v, ∃ m'',
            insert_each k (vs ++ [v]) m' = Normal m''
            ∧ find k m'' = Normal (Some v)
            ∧ size m'' = size m
            ∧ index_map m'' !! k = Some (size m'' - 1)
            ∧ element_set m'' !! Z.to_nat (size m'' - 1)
              = Some {| key := k; value := v |}
            ∧ (∀ j e, element_set m'' !! j = Some e → key e = k →
                      Z.of_nat j = size m'' - 1).
Proof.
  intros Hwt Hinv Hk.
  destruct (insert_present m k v2 Hwt Hinv Hk)
    as (m' & Hins & Hfind & Hsz & Hidx & Hlast & Hstale & Hwt' & Hinv').
  exists m'. do 7 (split; [done|]).
  intros vs v.
  destruct (insert_each_present m' k vs Hwt' Hinv') as (m1 & Hm1 & Hwt1 & Hinv1 & Hk1 & Hsz1);
    [by eexists|].
  destruct (insert_present m1 k v Hwt1 Hinv1 Hk1)
    as (m'' & Hins' & Hfind' & Hsz' & Hidx' & Hlast' & Hstale' & _).
  exists m''. rewrite insert_each_snoc, Hm1. cbn [mbind outcome_bind].
  do 2 (split; [done|]). split; [lia|]. done.
Qed.

(** Overwriting the first of three entries. *)
Lemma insert_overwrite_moves_to_tail_witness :
  let m : t N N Z :=
    {| element_set := [ {| key := 5%N; value := 50%N |};
                        {| key := 6%N; value := 60%N |};
                        {| key := 7%N; value := 70%N |} ];
       index_map := {[ 5%N := 0; 6%N := 1; 7%N := 2 ]};
       random_number_generator := 0 |} in
  well_typed m ∧ invariant m ∧ is_Some (index_map m !! 5%N)
  ∧ ∃ m', insert (Outside 5%N) (Outside 51%N) m = Normal m'
          ∧ find 5%N m' = Normal (Some 51%N)
          ∧ size m' = 3
          ∧ index_map m' !! 5%N = Some 2.
Proof.
  intros m.
  assert (well_typed m) as Hwt by decide_by_computation.
  assert (invariant m) as Hinv by decide_by_computation.
  assert (is_Some (index_map m !! 5%N)) as Hk by (exists 0; vm_compute; reflexivity).
  split; [exact Hwt|]. split; [exact Hinv|]. split; [exact Hk|].
  destruct (insert_overwrite_moves_to_tail m 5%N 51%N Hwt Hinv Hk)
    as (m' & Hins & Hfind & Hsize & Hidx & _).
  exists m'. split; [exact Hins|]. split; [exact Hfind|].
  split; [exact Hsize|]. rewrite Hidx, Hsize. reflexivity.
Defined.

(** ** Removing an absent key *)

Section remove_twice.
Context {K V : Type} `{Countable K} {G : Type}.
Implicit Types (m : t K V G) (k : K).

End remove_twice.



(** ** Random selection *)

(** In a duplicate-free list exactly one entry passes a filter that
    singles out one of its elements. *)
Lemma length_filter_unique {A} (P : A → Prop) `{∀ x, Decision (P x)}
    (l : list A) (a : A) :
  NoDup l → a ∈ l → (∀ x, x ∈ l → P x ↔ x = a) → length (filter P l) = 1%nat.
Proof.
  induction 1 as [|x l Hx Hnd IH]; intros Ha HP; [by apply elem_of_nil in Ha|].
  destruct (decide (P x)) as [HPx|HPx].
  - rewrite filter_cons_True by done.
    apply HP in HPx as ->; [|left].
    simpl. f_equal. apply length_zero_iff_nil.
    destruct (filter P l) as [|y ys] eqn:Hf; [done|].
    assert (y ∈ filter P l) as [Hy Hyl]%list_elem_of_filter by (rewrite Hf; left).
    apply HP in Hy; [|by right]. by subst.
  - rewrite filter_cons_False by done.
    apply IH; [|intros; apply HP; by right].
    apply elem_of_cons in Ha as [->|?]; [|done].
    destruct HPx. apply HP; [left|done].
Qed.

Section random_key_facts.
Context {K V : Type} `{Countable K} {G : Type}.
Implicit Types (m : t K V G) (k : K) (d : Z → Z → G → Z * G).

(** Within the range of [int] the bound of the distribution is the last
    slot. *)
Lemma random_key_bound m :
  0 < size m ≤ 2 ^ 31 →
  to_signed 32 (wrap 64 (vec_size (element_set m) - 1)) = size m - 1.
Proof.
  intros Hsz. unfold size in *. rewrite wrap_small by lia.
  unfold to_signed. rewrite wrap_small by lia.
  by destruct (Z.ltb_spec (vec_size (element_set m) - 1) (2 ^ (32 - 1))); [|lia].
Qed.

Lemma key_of_draw_slot m r e :
  size m ≤ 2 ^ 31 → element_set m !! Z.to_nat r = Some e → 0 ≤ r →
  key_of_draw m r = Normal (key e).
Proof.
  intros Hsz He Hr. unfold key_of_draw.
  pose proof (lookup_lt_Some _ _ _ He). unfold size, vec_size in *.
  rewrite wrap_small by lia. by rewrite (vec_at_slot _ _ _ Hr He).
Qed.

(** [random_key] returns [key_of_draw] of the value drawn, in every
    state. *)
Lemma random_key_key_of_draw d m :
  random_key d m =
    let b := to_signed 32 (wrap 64 (vec_size (element_set m) - 1)) in
    if 0 <=? b then
      let draw := d 0 b (random_number_generator m) in
      k ← key_of_draw m (draw.1);
      mret (k, {| element_set := element_set m;
                  index_map := index_map m;
                  random_number_generator := draw.2 |})
    else Undefined.
Proof.
  unfold random_key, key_of_draw. cbn zeta.
  destruct (0 <=? _); [|done].
  destruct (d _ _ _) as [r g']. cbn [fst snd].
  by destruct (vec_at _ _).
Qed.
End random_key_facts.

(** C2, as stated, fails: [random_key] has no check for an empty container.
    On the empty container the distribution is built with the bounds
    [(0, -1)]: the call neither aborts nor returns. *)
Lemma random_key_empty_no_fail_fast :
  let r := random_key counter_distribution (empty 0 : t N N Z) in
  r = Undefined ∧ r ≠ Aborted ∧ ∀ x, r ≠ Normal x.
Proof. by vm_compute. Qed.

(** C2, amended: calling [random_key] on a container whose dense store is
    empty has undefined behaviour, whatever the position index and the
    generator are: the code makes no check, so neither an abort nor an
    explicit error is guaranteed. *)
Theorem random_key_empty_undefined {K V : Type} `{Countable K} {G : Type}
    (d : Z → Z → G → Z * G) (im : gmap K Z) (g : G) :
  random_key d ({| element_set := []; index_map := im;
                   random_number_generator := g |} : t K V G)
  = Undefined.
Proof. reflexivity. Qed.

(** C5, as stated, fails: the upper bound of the distribution is an [int].
    The container filled with [2^31 + 1] keys satisfies the invariant, and
    [random_key] builds the distribution with the bounds [(0, -2^31)]. *)
Lemma random_key_undefined_beyond_int_range :
  ∃ m, fill 2147483649 = Normal m
       ∧ well_typed m ∧ invariant m ∧ size m = 2147483649
       ∧ random_key counter_distribution m = Undefined.
Proof.
  destruct (fill_invariant 2147483649) as (m & Hfill & Hwt & Hinv & Hsize);
    [by apply N.leb_le|].
  exists m. split; [exact Hfill|]. clear Hfill.
  split; [exact Hwt|]. split; [exact Hinv|]. split; [exact Hsize|].
  unfold random_key. unfold size in Hsize. rewrite Hsize. reflexivity.
Qed.

(** C5, amended: in a state that satisfies the invariant and holds between
    [1] and [2^31] entries, [random_key] draws a slot from the uniform
    distribution over [[0, size - 1]] and returns the key stored at that
    slot, changing only the generator; the equally likely draws are the
    slots [0, ..., size - 1], and every key present is returned for exactly
    one of them, that is, with probability [1 / size]. *)
Theorem random_key_uniform_within_int_range
    {K V : Type} `{Countable K} {G : Type}
    (d : Z → Z → G → Z * G) (m : t K V G) :
  well_typed m → invariant m → 0 < size m ≤ 2 ^ 31 →
  (∀ a b g, a ≤ b → a ≤ (d a b g).1 ≤ b) →
  let draw := d 0 (size m - 1) (random_number_generator m) in
  (∃ e, 0 ≤ draw.1 < size m
        ∧ element_set m !! Z.to_nat (draw.1) = Some e
        ∧ random_key d m =
            Normal (key e, {| element_set := element_set m;
                              index_map := index_map m;
                              random_number_generator := draw.2 |}))
  ∧ random_key_draws m = seqZ 0 (size m)
  ∧ (∀ r, r ∈ random_key_draws m →
          ∃ e, element_set m !! Z.to_nat r = Some e
               ∧ key_of_draw m r = Normal (key e))
  ∧ ∀ k, is_Some (index_map m !! k) →
         random_key_probability m k = Qmake 1 (Z.to_pos (size m)).
Proof.
  intros Hwt Hinv Hsz Hd draw.
  pose proof (invariant_slots_indexed _ Hinv) as Hb. pose proof Hinv as [Hs _].
  pose proof (random_key_bound m Hsz) as Hbound.
  assert (random_key_draws m = seqZ 0 (size m)) as Hdraws.
  { unfold random_key_draws. rewrite Hbound. f_equal. lia. }
  split; [|split; [done|split]].
  - destruct (Hd 0 (size m - 1) (random_number_generator m)) as [Hlo Hhi]; [lia|].
    fold draw in Hlo, Hhi.
    destruct (lookup_lt_is_Some_2 (element_set m) (Z.to_nat (draw.1))) as [e He].
    { unfold size, vec_size in *. lia. }
    exists e. split; [lia|]. split; [done|].
    unfold random_key. rewrite Hbound.
    destruct (Z.leb_spec 0 (size m - 1)); [|lia].
    fold draw. destruct draw as [r g']. simpl in *.
    unfold size in *. rewrite wrap_small by lia.
    by rewrite (vec_at_slot _ _ _ Hlo He).
  - intros r Hr. rewrite Hdraws in Hr. apply elem_of_seqZ in Hr as [Hr0 Hr].
    destruct (lookup_lt_is_Some_2 (element_set m) (Z.to_nat r)) as [e He].
    { unfold size, vec_size in *. lia. }
    exists e. split; [done|]. apply key_of_draw_slot; (done || lia).
  - intros k [i Hk]. unfold random_key_probability. rewrite Hdraws.
    destruct (index_sound_lookup _ _ _ Hs Hk) as (e & Hi0 & Hi & Hkey).
    pose proof (lookup_lt_Some _ _ _ Hi) as Hlt.
    rewrite (length_filter_unique _ _ i).
    + rewrite length_seqZ. f_equal. unfold size, vec_size. lia.
    + apply NoDup_seqZ.
    + apply elem_of_seqZ. unfold size, vec_size. lia.
    + intros r [Hr0 Hr]%elem_of_seqZ.
      destruct (lookup_lt_is_Some_2 (element_set m) (Z.to_nat r)) as [e' He'].
      { unfold size, vec_size in *. lia. }
      rewrite (key_of_draw_slot m r e') by (done || lia).
      split.
      * intros [= Hke]. apply Hb in He'. rewrite Hke, Hk in He'.
        injection He' as ->. lia.
      * intros ->. rewrite Hi in He'. by injection He' as <-; subst.
Qed.

(** Three entries and the counter generator in state [4]: slot [1] is
    drawn. *)
Lemma random_key_uniform_within_int_range_witness :
  let m : t N N Z :=
    {| element_set := [ {| key := 5%N; value := 50%N |};
                        {| key := 6%N; value := 60%N |};
                        {| key := 7%N; value := 70%N |} ];
       index_map := {[ 5%N := 0; 6%N := 1; 7%N := 2 ]};
       random_number_generator := 4 |} in
  well_typed m ∧ invariant m ∧ 0 < size m ≤ 2 ^ 31
  ∧ (∀ a b g, a ≤ b → a ≤ (counter_distribution a b g).1 ≤ b)
  ∧ random_key counter_distribution m =
      Normal (6%N, {| element_set := element_set m;
                      index_map := index_map m;
                      random_number_generator := 5 |})
  ∧ random_key_probability m 6%N = Qmake 1 3.
Proof.
  intros m.
  assert (well_typed m) as Hwt by decide_by_computation.
  assert (invariant m) as Hinv by decide_by_computation.
  assert (0 < size m ≤ 2 ^ 31) as Hsz by (vm_compute; split; [reflexivity|discriminate]).
  assert (∀ a b g, a ≤ b → a ≤ (counter_distribution a b g).1 ≤ b) as Hd.
  { intros a b g Hab. unfold counter_distribution. simpl.
    pose proof (Z.mod_pos_bound g (b - a + 1)). lia. }
  split; [exact Hwt|]. split; [exact Hinv|]. split; [exact Hsz|]. split; [exact Hd|].
  destruct (random_key_uniform_within_int_range counter_distribution m Hwt Hinv Hsz Hd)
    as ((e & _ & He & Hkey) & _ & _ & Hprob).
  split.
  - rewrite Hkey. vm_compute in He. injection He as <-. reflexivity.
  - apply Hprob. exists 1. vm_compute. reflexivity.
Defined.

(** * Further properties of the random-access unordered map *)

Section aliased_calls.
Context {K V : Type} `{Countable K} {G : Type}.
Implicit Types (m : t K V G) (k : K) (v : V) (i : Z) (e : Element K V).

(** Closed form of [remove] called on the key of the entry in slot [i],
    not the last: the key read after the swap is the moved one. *)
Lemma remove_element_key m i e_i e_l :
  well_typed m → invariant m →
  0 ≤ i < size m - 1 →
  element_set m !! Z.to_nat i = Some e_i →
  element_set m !! Nat.pred (length (element_set m)) = Some e_l →
  remove (InElement i key) m =
    Normal {| element_set :=
                <[Z.to_nat i := e_l]>
                  (take (Nat.pred (length (element_set m))) (element_set m));
              index_map := delete (key e_l) (<[key e_l := i]> (index_map m));
              random_number_generator := random_number_generator m |}.
Proof.
  intros [_ Hsz] Hinv Hrange Hi Hl.
  pose proof (invariant_slots_indexed _ Hinv) as Hb.
  pose proof (Hb _ _ Hi) as Hk. rewrite Z2Nat.id in Hk by lia.
  pose proof (lookup_lt_Some _ _ _ Hi) as Hlt.
  unfold size, vec_size in *.
  unfold remove. cbn [read].
  rewrite (vec_at_slot _ i e_i) by (lia || done). cbn [mbind outcome_bind mret outcome_ret].
  unfold find_index. rewrite Hk. unfold vec_size. rewrite wrap_small by lia.
  destruct (Z.eqb_spec i (Z.of_nat (length (element_set m)) - 1)) as [Heq|_]; [lia|].
  unfold vec_swap.
  rewrite (vec_at_slot _ i e_i) by (lia || done). cbn [mbind outcome_bind].
  replace (Z.of_nat (length (element_set m)) - 1)
    with (Z.of_nat (Nat.pred (length (element_set m)))) by lia.
  rewrite (vec_at_lookup _ _ _ Hl). cbn [mbind outcome_bind mret outcome_ret].
  rewrite Nat2Z.id.
  rewrite vec_pop_back_nonempty
    by (intros Hnil%(f_equal length); rewrite !length_insert in Hnil;
        simpl in Hnil; lia).
  cbn [mbind outcome_bind]. rewrite !length_insert.
  rewrite take_insert_ge, take_insert_lt by lia.
  assert (<[Z.to_nat i:=e_l]>
            (take (Nat.pred (length (element_set m))) (element_set m))
          !! Z.to_nat i = Some e_l) as Hmoved
    by (apply list_lookup_insert_eq; rewrite length_take; lia).
  rewrite (vec_at_slot _ i e_l) by (lia || done).
  cbn [mbind outcome_bind mret outcome_ret element_set].
  rewrite (vec_at_slot _ i e_l) by (lia || done).
  reflexivity.
Qed.

(** [remove] called on the key of the last entry: [pop_back] destroys the
    entry the reference points at before [erase] reads it. *)
Lemma remove_last_element_key m :
  well_typed m → invariant m → 0 < size m →
  remove (InElement (size m - 1) key) m = Undefined.
Proof.
  intros [_ Hsz] Hinv Hpos.
  pose proof (invariant_slots_indexed _ Hinv) as Hb.
  unfold size, vec_size in *.
  destruct (lookup_lt_is_Some_2 (element_set m) (Nat.pred (length (element_set m))))
    as [e_l Hl]; [lia|].
  pose proof (Hb _ _ Hl) as Hk.
  replace (Z.of_nat (length (element_set m)) - 1)
    with (Z.of_nat (Nat.pred (length (element_set m)))) by lia.
  unfold remove. cbn [read].
  rewrite (vec_at_lookup _ _ _ Hl). cbn [mbind outcome_bind mret outcome_ret].
  unfold find_index. rewrite Hk. unfold vec_size.
  rewrite wrap_small by lia.
  destruct (Z.eqb_spec (Z.of_nat (Nat.pred (length (element_set m))))
              (Z.of_nat (length (element_set m)) - 1)) as [_|Hne]; [|lia].
  rewrite vec_pop_back_nonempty by (by intros Hnil; rewrite Hnil in Hl).
  cbn [mbind outcome_bind mret outcome_ret element_set].
  rewrite vec_at_out_of_range; [done|].
  unfold vec_size. rewrite length_take. lia.
Qed.
End aliased_calls.



(** [remove] called on a reference to the key of an entry of the dense
    store, as [remove(element_set[i].key)], in a state that satisfies the
    invariant.  If slot [i] is not the last, the call returns, but
    [index_map.erase(key)] reads the key after the swap: the entry of the
    last slot is moved into slot [i], its key is erased from the position
    index, and the key that was to be removed stays indexed under [i].
    Afterwards [find] of the removed key returns the value of the moved
    entry, [find] of the moved key returns not-found, and the invariant is
    broken. *)
Theorem remove_by_element_reference {K V : Type} `{Countable K} {G : Type}
    (m : t K V G) (i : Z) (e_i e_last : Element K V) :
  well_typed m → invariant m →
  0 ≤ i < size m - 1 →
  element_set m !! Z.to_nat i = Some e_i →
  element_set m !! Z.to_nat (size m - 1) = Some e_last →
  ∃ m', remove (InElement i key) m = Normal m'
        ∧ element_set m' =
            <[Z.to_nat i := e_last]>
              (take (Z.to_nat (size m - 1)) (element_set m))
        ∧ index_map m' !! key e_i = Some i
        ∧ index_map m' !! key e_last = None
        ∧ find (key e_i) m' = Normal (Some (value e_last))
        ∧ find (key e_last) m' = Normal None
        ∧ ¬ invariant m'.
Proof.
  intros Hwt Hinv Hrange Hi Hl.
  pose proof (invariant_slots_indexed _ Hinv) as Hb.
  assert (Z.to_nat (size m - 1) = Nat.pred (length (element_set m))) as Hlast
    by (unfold size, vec_size; lia).
  rewrite Hlast in *.
  pose proof (Hb _ _ Hi) as Hki. rewrite Z2Nat.id in Hki by lia.
  pose proof (Hb _ _ Hl) as Hkl.
  assert (key e_last ≠ key e_i) as Hne.
  { intros Heq. rewrite Heq, Hki in Hkl. injection Hkl as ->.
    unfold size, vec_size in Hrange. lia. }
  eexists. split; [by apply (remove_element_key m i e_i e_last)|].
  cbn [element_set index_map].
  assert (<[Z.to_nat i:=e_last]>
            (take (Nat.pred (length (element_set m))) (element_set m))
          !! Z.to_nat i = Some e_last) as Hmoved.
  { apply list_lookup_insert_eq. rewrite length_take.
    unfold size, vec_size in Hrange. lia. }
  assert (delete (key e_last) (<[key e_last:=i]> (index_map m)) !! key e_i = Some i)
    as Hidx by (by rewrite lookup_delete_ne, lookup_insert_ne).
  split; [done|]. split; [exact Hidx|]. split; [apply lookup_delete_eq|].
  split; [|split].
  - unfold find, find_index. cbn [index_map element_set]. rewrite Hidx.
    by rewrite (vec_at_slot _ i e_last) by (lia || done).
  - unfold find, find_index. cbn [index_map]. by rewrite lookup_delete_eq.
  - intros [Hs _]. destruct (Hs _ _ Hidx) as [_ Hkey].
    cbn [element_set] in Hkey. rewrite Hmoved in Hkey.
    injection Hkey as Hkey. done.
Qed.

(** [remove(element_set[0].key)] on three entries. *)
Lemma remove_by_element_reference_witness :
  let m : t N N Z :=
    {| element_set := [ {| key := 5%N; value := 50%N |};
                        {| key := 6%N; value := 60%N |};
                        {| key := 7%N; value := 70%N |} ];
       index_map := {[ 5%N := 0; 6%N := 1; 7%N := 2 ]};
       random_number_generator := 0 |} in
  well_typed m ∧ invariant m
  ∧ ∃ m', remove (InElement 0 key) m = Normal m'
          ∧ element_set m' = [ {| key := 7%N; value := 70%N |};
                               {| key := 6%N; value := 60%N |} ]
          ∧ find 5%N m' = Normal (Some 70%N)
          ∧ find 7%N m' = Normal None.
Proof.
  intros m.
  assert (well_typed m) as Hwt by decide_by_computation.
  assert (invariant m) as Hinv by decide_by_computation.
  split; [exact Hwt|]. split; [exact Hinv|].
  destruct (remove_by_element_reference m 0
              {| key := 5%N; value := 50%N |} {| key := 7%N; value := 70%N |}
              Hwt Hinv)
    as (m' & Hrm & Hes & _ & _ & Hfind & Hmoved & _);
    [vm_compute; split; [discriminate|reflexivity]|reflexivity|reflexivity|].
  exists m'. split; [exact Hrm|]. split; [exact Hes|].
  split; [exact Hfind|exact Hmoved].
Defined.

(** [remove] and [insert] called on a reference to the key of the last
    entry, as [remove(element_set.back().key)], in a non-empty state that
    satisfies the invariant: [pop_back] destroys the entry, and the read of
    the key that follows (line 106) has undefined behaviour. *)
Theorem remove_by_last_element_reference {K V : Type} `{Countable K} {G : Type}
    (m : t K V G) (value_ref : place K V V) :
  well_typed m → invariant m → 0 < size m →
  remove (InElement (size m - 1) key) m = Undefined
  ∧ insert (InElement (size m - 1) key) value_ref m = Undefined.
Proof.
  intros Hwt Hinv Hpos.
  pose proof (remove_last_element_key m Hwt Hinv Hpos) as Hrm.
  split; [exact Hrm|]. unfold insert. by rewrite Hrm.
Qed.

(** [remove(element_set.back().key)] on two entries. *)
Lemma remove_by_last_element_reference_witness :
  let m : t N N Z :=
    {| element_set := [ {| key := 5%N; value := 50%N |};
                        {| key := 6%N; value := 60%N |} ];
       index_map := {[ 5%N := 0; 6%N := 1 ]};
       random_number_generator := 0 |} in
  well_typed m ∧ invariant m ∧ 0 < size m
  ∧ remove (InElement 1 key) m = Undefined.
Proof.
  intros m.
  assert (well_typed m) as Hwt by decide_by_computation.
  assert (invariant m) as Hinv by decide_by_computation.
  assert (0 < size m) as Hpos by (vm_compute; reflexivity).
  split; [exact Hwt|]. split; [exact Hinv|]. split; [exact Hpos|].
  exact (proj1 (remove_by_last_element_reference m (Outside 0%N) Hwt Hinv Hpos)).
Defined.

(** [insert] called on a reference to the key of an entry of the dense
    store that is not the last, as [insert(element_set[i].key, v)], in a
    state that satisfies the invariant: after [remove] the reference reads
    the key of the moved entry, so the entry appended carries that key,
    which is then stored twice.  The call returns with the count unchanged;
    [find] of the key passed returns the value of the moved entry, not
    [v], and the invariant is broken. *)
Theorem insert_by_element_reference {K V : Type} `{Countable K} {G : Type}
    (m : t K V G) (i : Z) (v : V) (e_i e_last : Element K V) :
  well_typed m → invariant m →
  0 ≤ i < size m - 1 →
  element_set m !! Z.to_nat i = Some e_i →
  element_set m !! Z.to_nat (size m - 1) = Some e_last →
  ∃ m', insert (InElement i key) (Outside v) m = Normal m'
        ∧ element_set m' =
            <[Z.to_nat i := e_last]>
              (take (Z.to_nat (size m - 1)) (element_set m))
            ++ [ {| key := key e_last; value := v |} ]
        ∧ size m' = size m
        ∧ find (key e_i) m' = Normal (Some (value e_last))
        ∧ find (key e_last) m' = Normal (Some v)
        ∧ ¬ invariant m'.
Proof.
  intros Hwt Hinv Hrange Hi Hl.
  pose proof (invariant_slots_indexed _ Hinv) as Hb.
  pose proof (invariant_capacity _ Hwt Hinv) as Hcap.
  assert (Z.to_nat (size m - 1) = Nat.pred (length (element_set m))) as Hlast
    by (unfold size, vec_size; lia).
  rewrite Hlast in *.
  pose proof (Hb _ _ Hi) as Hki. rewrite Z2Nat.id in Hki by lia.
  pose proof (Hb _ _ Hl) as Hkl.
  assert (key e_last ≠ key e_i) as Hne.
  { intros Heq. rewrite Heq, Hki in Hkl. injection Hkl as ->.
    unfold size, vec_size in Hrange. lia. }
  set (es := <[Z.to_nat i:=e_last]>
               (take (Nat.pred (length (element_set m))) (element_set m))).
  assert (length es = Nat.pred (length (element_set m))) as Hlen.
  { unfold es. rewrite length_insert, length_take. lia. }
  assert (es !! Z.to_nat i = Some e_last) as Hmoved.
  { apply list_lookup_insert_eq. rewrite length_take.
    unfold size, vec_size in Hrange. lia. }
  unfold size, vec_size in Hrange, Hcap.
  unfold insert. rewrite (remove_element_key m i e_i e_last) by done.
  fold es. cbn [mbind outcome_bind read element_set index_map random_number_generator].
  rewrite (vec_at_slot _ i e_last) by (lia || done).
  cbn [mbind outcome_bind mret outcome_ret].
  assert ((vec_size es <? vec_size (element_set m)) = true) as ->
    by (apply Z.ltb_lt; unfold vec_size; lia).
  cbn [read_after_emplace_back read element_set].
  rewrite (vec_at_slot _ i e_last)
    by (lia || (by apply lookup_app_l_Some)).
  cbn [mbind outcome_bind mret outcome_ret].
  unfold umap_insert. rewrite lookup_delete_eq.
  rewrite vec_size_snoc. unfold vec_size at 1. rewrite Hlen.
  rewrite (wrap_small 64), (wrap_small 32) by lia.
  eexists. split; [reflexivity|].
  cbn [element_set index_map]. unfold size. cbn [element_set].
  assert (<[key e_last:=Z.of_nat (Nat.pred (length (element_set m))) + 1 - 1]>
            (delete (key e_last) (<[key e_last:=i]> (index_map m)))
          !! key e_i = Some i) as Hidx
    by (by rewrite lookup_insert_ne, lookup_delete_ne, lookup_insert_ne).
  split; [done|].
  split; [rewrite vec_size_snoc; unfold vec_size; lia|].
  split; [|split].
  - unfold find, find_index. cbn [index_map element_set]. rewrite Hidx.
    by rewrite (vec_at_slot _ i e_last) by (lia || (by apply lookup_app_l_Some)).
  - unfold find, find_index. cbn [index_map element_set].
    rewrite lookup_insert_eq.
    rewrite (vec_at_slot _ _ {| key := key e_last; value := v |}); [done|lia|].
    replace (Z.to_nat (Z.of_nat (Nat.pred (length (element_set m))) + 1 - 1))
      with (length es + 0)%nat by lia.
    by rewrite lookup_app_r, Nat.add_comm, Nat.add_sub by lia.
  - intros [Hs _]. destruct (Hs _ _ Hidx) as [_ Hkey].
    cbn [element_set] in Hkey.
    rewrite (lookup_app_l_Some _ _ _ _ Hmoved) in Hkey.
    injection Hkey as Hkey. done.
Qed.

(** [insert(element_set[0].key, 51)] on three entries. *)
Lemma insert_by_element_reference_witness :
  let m : t N N Z :=
    {| element_set := [ {| key := 5%N; value := 50%N |};
                        {| key := 6%N; value := 60%N |};
                        {| key := 7%N; value := 70%N |} ];
       index_map := {[ 5%N := 0; 6%N := 1; 7%N := 2 ]};
       random_number_generator := 0 |} in
  well_typed m ∧ invariant m
  ∧ ∃ m', insert (InElement 0 key) (Outside 51%N) m = Normal m'
          ∧ element_set m' = [ {| key := 7%N; value := 70%N |};
                               {| key := 6%N; value := 60%N |};
                               {| key := 7%N; value := 51%N |} ]
          ∧ find 5%N m' = Normal (Some 70%N)
          ∧ find 7%N m' = Normal (Some 51%N).
Proof.
  intros m.
  assert (well_typed m) as Hwt by decide_by_computation.
  assert (invariant m) as Hinv by decide_by_computation.
  split; [exact Hwt|]. split; [exact Hinv|].
  destruct (insert_by_element_reference m 0 51%N
              {| key := 5%N; value := 50%N |} {| key := 7%N; value := 70%N |}
              Hwt Hinv)
    as (m' & Hins & Hes & _ & Hfind & Hmoved & _);
    [vm_compute; split; [discriminate|reflexivity]|reflexivity|reflexivity|].
  exists m'. split; [exact Hins|]. split; [exact Hes|].
  split; [exact Hfind|exact Hmoved].
Defined.

(** * Facts about the modular arithmetic *)

Section modular_arithmetic_facts.
Import ModularArithmetic.

Lemma run_bind {A B} (m : tracked A) (f : A → tracked B) a e :
  run m = Normal (a, e) →
  run (m ≫= f) =
    match run (f a) with
    | Normal (b, e') => Normal (b, e && e')
    | Aborted => Aborted
    | Undefined => Undefined
    end.
Proof. intros Hm. unfold mbind, tracked_bind. simpl. by rewrite Hm. Qed.

Lemma run_assert_true (c : bool) : c = true → run (assert c) = Normal ((), true).
Proof. by intros ->. Qed.

(** [mod_add] on operands below the modulus. *)
Lemma mod_add_run a b n :
  0 ≤ a < n → 0 ≤ b < n → n < 2 ^ 64 →
  run (mod_add a b n) = Normal ((a + b) mod n, true).
Proof.
  intros Ha Hb Hn. unfold mod_add.
  rewrite (run_bind _ _ () true) by (apply run_assert_true; lia).
  rewrite (run_bind _ _ () true) by (apply run_assert_true; lia).
  rewrite (run_bind _ _ () true) by (apply run_assert_true; lia).
  destruct (Z.eqb_spec b 0) as [->|Hb0].
  { simpl. by rewrite Z.add_0_r, Z.mod_small. }
  rewrite (run_bind _ _ (n - b) true)
    by (unfold sub64; simpl; rewrite wrap_small by lia;
        by destruct (Z.leb_spec 0 (n - b)); [|lia]).
  destruct (Z.geb_spec a (n - b)) as [Hge|Hlt].
  - unfold sub64. simpl. rewrite wrap_small by lia.
    destruct (Z.leb_spec 0 (a - (n - b))); [|lia]. simpl. do 2 f_equal.
    apply (Z.mod_unique _ _ 1); lia.
  - rewrite (run_bind _ _ b true)
      by (unfold sub64; simpl; rewrite wrap_small by lia;
          replace (n - (n - b)) with b by lia;
          by destruct (Z.leb_spec 0 b); [|lia]).
    unfold add64. simpl. rewrite wrap_small by lia.
    destruct (Z.ltb_spec (b + a) (2 ^ 64)); [|lia]. simpl. do 2 f_equal.
    rewrite Z.mod_small by lia. lia.
Qed.

Lemma mod_multiply_loop_unfold fuel product a b n :
  mod_multiply_loop fuel product a b n =
    if negb (b =? 0) then
      match fuel with
      | O => mret None
      | S fuel =>
          product ← (if negb (Z.land b 1 =? 0) then mod_add product a n
                     else mret product);
          a ← mod_add a a n;
          mod_multiply_loop fuel product a (Z.shiftr b 1) n
      end
    else mret (Some product).
Proof. by destruct fuel. Qed.

(** The loop invariant of double-and-add: [product + a * b] is constant
    modulo [n], and [fuel] iterations are enough for a [b] of [fuel]
    bits. *)
Lemma mod_multiply_loop_run fuel product a b n :
  0 ≤ product < n → 0 ≤ a < n → 0 ≤ b < 2 ^ Z.of_nat fuel → n < 2 ^ 64 →
  run (mod_multiply_loop fuel product a b n)
  = Normal (Some ((product + a * b) mod n), true).
Proof.
  revert product a b.
  induction fuel as [|fuel IH]; intros product a b Hp Ha Hb Hn;
    rewrite mod_multiply_loop_unfold.
  { assert (b = 0) as -> by (change (2 ^ Z.of_nat 0) with 1 in Hb; lia).
    simpl. by rewrite Z.mul_0_r, Z.add_0_r, Z.mod_small. }
  destruct (Z.eqb_spec b 0) as [->|Hb0].
  { simpl. by rewrite Z.mul_0_r, Z.add_0_r, Z.mod_small. }
  cbn [negb].
  assert (Z.land b 1 = b mod 2) as Hland by (apply (Z.land_ones b 1); lia).
  assert (Z.shiftr b 1 = b / 2) as Hshr by (apply (Z.shiftr_div_pow2 b 1); lia).
  pose proof (Z.div_mod b 2 ltac:(lia)) as Hdiv.
  pose proof (Z.mod_pos_bound b 2 ltac:(lia)) as Hmod.
  assert (0 ≤ b / 2 < 2 ^ Z.of_nat fuel) as Hb'.
  { rewrite Nat2Z.inj_succ, Z.pow_succ_r in Hb by lia. lia. }
  assert (0 < n) as Hn0 by lia.
  pose proof (Z.mod_pos_bound (product + a) n Hn0).
  pose proof (Z.mod_pos_bound (a + a) n Hn0).
  rewrite Hland, Hshr.
  destruct (Z.eqb_spec (b mod 2) 0) as [Heven|Hodd]; cbn [negb].
  - rewrite (run_bind _ _ product true) by done.
    rewrite (run_bind _ _ ((a + a) mod n) true) by (by apply mod_add_run).
    rewrite IH by done. cbn [andb]. do 3 f_equal.
    rewrite <-Z.add_mod_idemp_r, Z.mul_mod_idemp_l, Z.add_mod_idemp_r by lia.
    f_equal. nia.
  - rewrite (run_bind _ _ ((product + a) mod n) true) by (by apply mod_add_run).
    rewrite (run_bind _ _ ((a + a) mod n) true) by (by apply mod_add_run).
    rewrite IH by done. cbn [andb]. do 3 f_equal.
    rewrite <-Z.add_mod_idemp_r, Z.mul_mod_idemp_l, Z.add_mod_idemp_r by lia.
    rewrite Z.add_mod_idemp_l by lia.
    f_equal. nia.
Qed.

End modular_arithmetic_facts.

(** C9: for 64-bit unsigned [a], [b], [n] with [a < n] and [b < n],
    [mod_add(a, b, n)] returns [(a + b) mod n], and no operation it
    evaluates wraps modulo [2^64]. *)
Theorem mod_add_correct (a b n : Z) :
  ModularArithmetic.is_u64 a → ModularArithmetic.is_u64 b →
  ModularArithmetic.is_u64 n → a < n → b < n →
  ModularArithmetic.run (ModularArithmetic.mod_add a b n)
  = Normal ((a + b) mod n, true).
Proof.
  unfold ModularArithmetic.is_u64. intros Ha Hb Hn Han Hbn.
  apply mod_add_run; lia.
Qed.

(** Operands whose sum exceeds [2^64]. *)
Lemma mod_add_correct_witness :
  ModularArithmetic.is_u64 18446744073709551614
  ∧ ModularArithmetic.is_u64 18446744073709551613
  ∧ ModularArithmetic.is_u64 18446744073709551615
  ∧ 18446744073709551614 < 18446744073709551615
  ∧ 18446744073709551613 < 18446744073709551615
  ∧ 2 ^ 64 ≤ 18446744073709551614 + 18446744073709551613
  ∧ ModularArithmetic.run
      (ModularArithmetic.mod_add 18446744073709551614 18446744073709551613
         18446744073709551615)
    = Normal (18446744073709551612, true).
Proof.
  assert (ModularArithmetic.is_u64 18446744073709551614) as Ha
    by (unfold ModularArithmetic.is_u64; lia).
  assert (ModularArithmetic.is_u64 18446744073709551613) as Hb
    by (unfold ModularArithmetic.is_u64; lia).
  assert (ModularArithmetic.is_u64 18446744073709551615) as Hn
    by (unfold ModularArithmetic.is_u64; lia).
  split; [exact Ha|]. split; [exact Hb|]. split; [exact Hn|].
  split; [lia|]. split; [lia|]. split; [lia|].
  rewrite (mod_add_correct _ _ _ Ha Hb Hn) by lia. reflexivity.
Defined.

(** C10: for 64-bit unsigned [a], [b], [n] with [a < n] and [b < n],
    [mod_multiply(a, b, n)] returns [(a * b) mod n]: the double-and-add
    loop ends within the 64 iterations a [uint64_t] allows, every step is a
    [mod_add], and no operation wraps modulo [2^64], however large the
    product [a * b] is. *)
Theorem mod_multiply_correct (a b n : Z) :
  ModularArithmetic.is_u64 a → ModularArithmetic.is_u64 b →
  ModularArithmetic.is_u64 n → a < n → b < n →
  ModularArithmetic.run (ModularArithmetic.mod_multiply a b n)
  = Normal (Some ((a * b) mod n), true).
Proof.
  unfold ModularArithmetic.is_u64. intros Ha Hb Hn Han Hbn.
  unfold ModularArithmetic.mod_multiply.
  rewrite (run_bind _ _ () true) by (apply run_assert_true; lia).
  rewrite (run_bind _ _ () true) by (apply run_assert_true; lia).
  rewrite (run_bind _ _ () true) by (apply run_assert_true; lia).
  destruct (b >? a).
  - rewrite mod_multiply_loop_run
      by (try change (2 ^ Z.of_nat 64) with (2 ^ 64); lia).
    by rewrite Z.add_0_l, Z.mul_comm.
  - rewrite mod_multiply_loop_run
      by (try change (2 ^ Z.of_nat 64) with (2 ^ 64); lia).
    by rewrite Z.add_0_l.
Qed.

(** The product computed by [main], line 230. *)
Lemma mod_multiply_correct_witness :
  ModularArithmetic.is_u64 18446743983658366132
  ∧ ModularArithmetic.is_u64 17446663900858366132
  ∧ ModularArithmetic.is_u64 18446743988858366132
  ∧ 18446743983658366132 < 18446743988858366132
  ∧ 17446663900858366132 < 18446743988858366132
  ∧ ModularArithmetic.run
      (ModularArithmetic.mod_multiply 18446743983658366132 17446663900858366132
         18446743988858366132)
    = Normal (Some 6543347294009229256, true).
Proof.
  assert (ModularArithmetic.is_u64 18446743983658366132) as Ha
    by (unfold ModularArithmetic.is_u64; lia).
  assert (ModularArithmetic.is_u64 17446663900858366132) as Hb
    by (unfold ModularArithmetic.is_u64; lia).
  assert (ModularArithmetic.is_u64 18446743988858366132) as Hn
    by (unfold ModularArithmetic.is_u64; lia).
  split; [exact Ha|]. split; [exact Hb|]. split; [exact Hn|].
  split; [lia|]. split; [lia|].
  rewrite (mod_multiply_correct _ _ _ Ha Hb Hn) by lia. reflexivity.
Defined.

(** * Further properties of the modular arithmetic *)

(** Subtraction, increment, decrement and the additive inverse. *)
Section modular_arithmetic_more.
Import ModularArithmetic.

Lemma run_sub64_exact x y :
  0 ≤ x - y < 2 ^ 64 → run (sub64 x y) = Normal (x - y, true).
Proof.
  intros Hr. unfold sub64. simpl. rewrite wrap_small by lia.
  by destruct (Z.leb_spec 0 (x - y)); [|lia].
Qed.

Lemma run_add64_exact x y :
  0 ≤ x + y < 2 ^ 64 → run (add64 x y) = Normal (x + y, true).
Proof.
  intros Hr. unfold add64. simpl. rewrite wrap_small by lia.
  by destruct (Z.ltb_spec (x + y) (2 ^ 64)); [|lia].
Qed.

Lemma run_bind_aborted {A B} (m : tracked A) (f : A → tracked B) :
  run m = Aborted → run (m ≫= f) = Aborted.
Proof. intros Hm. unfold mbind, tracked_bind. simpl. by rewrite Hm. Qed.

Lemma run_mret {A} (a : A) : run (mret a) = Normal (a, true).
Proof. done. Qed.

Lemma mod_subtract_run a b n :
  0 ≤ a < n → 0 ≤ b < n → n < 2 ^ 64 →
  run (mod_subtract a b n) = Normal ((a - b) mod n, true).
Proof.
  intros Ha Hb Hn. unfold mod_subtract.
  rewrite (run_bind _ _ () true) by (apply run_assert_true; lia).
  rewrite (run_bind _ _ () true) by (apply run_assert_true; lia).
  rewrite (run_bind _ _ () true) by (apply run_assert_true; lia).
  destruct (Z.geb_spec a b) as [Hge|Hlt].
  - rewrite run_sub64_exact by lia. cbn [andb]. do 2 f_equal.
    by rewrite Z.mod_small by lia.
  - rewrite (run_bind _ _ (n - b) true) by (apply run_sub64_exact; lia).
    rewrite run_add64_exact by lia. cbn [andb]. do 2 f_equal.
    apply (Z.mod_unique _ _ (-1)); lia.
Qed.

Lemma mod_increment_run a n :
  0 ≤ a < n → n < 2 ^ 64 →
  run (mod_increment a n) = Normal ((a + 1) mod n, true).
Proof.
  intros Ha Hn. unfold mod_increment.
  rewrite (run_bind _ _ () true) by (apply run_assert_true; lia).
  rewrite (run_bind _ _ () true) by (apply run_assert_true; lia).
  rewrite (run_bind _ _ (a + 1) true) by (apply run_add64_exact; lia).
  rewrite run_mret. cbn [andb]. do 2 f_equal.
  destruct (Z.eqb_spec (a + 1) n) as [<-|Hne].
  - by rewrite Z.mod_same by lia.
  - by rewrite Z.mod_small by lia.
Qed.

Lemma mod_decrement_run a n :
  0 ≤ a < n → n < 2 ^ 64 →
  run (mod_decrement a n) = Normal ((a - 1) mod n, true).
Proof.
  intros Ha Hn. unfold mod_decrement.
  rewrite (run_bind _ _ () true) by (apply run_assert_true; lia).
  rewrite (run_bind _ _ () true) by (apply run_assert_true; lia).
  destruct (Z.eqb_spec a 0) as [->|Hne].
  - rewrite run_sub64_exact by lia. cbn [andb]. do 2 f_equal.
    apply (Z.mod_unique _ _ (-1)); lia.
  - rewrite run_sub64_exact by lia. cbn [andb]. do 2 f_equal.
    by rewrite Z.mod_small by lia.
Qed.

Lemma mod_additive_inverse_run a n :
  0 ≤ a < n → n < 2 ^ 64 →
  run (mod_additive_inverse a n) = Normal ((- a) mod n, true).
Proof.
  intros Ha Hn. unfold mod_additive_inverse.
  rewrite (run_bind _ _ () true) by (apply run_assert_true; lia).
  rewrite (run_bind _ _ () true) by (apply run_assert_true; lia).
  destruct (Z.eqb_spec a 0) as [->|Hne].
  - by rewrite run_mret.
  - rewrite run_sub64_exact by lia. cbn [andb]. do 2 f_equal.
    apply (Z.mod_unique _ _ (-1)); lia.
Qed.

End modular_arithmetic_more.

(** [int64_t] arithmetic and [mod]. *)
Section signed_facts.
Import ModularArithmetic.

Lemma run_signed64 z : - 2 ^ 63 ≤ z < 2 ^ 63 → run (signed64 z) = Normal (z, true).
Proof.
  intros Hz. unfold signed64.
  by destruct (Z.leb_spec (- 2 ^ 63) z), (Z.ltb_spec z (2 ^ 63)); try lia.
Qed.

Lemma run_signed64_overflow z :
  ¬ (- 2 ^ 63 ≤ z < 2 ^ 63) → run (signed64 z) = Undefined.
Proof.
  intros Hz. unfold signed64.
  by destruct (Z.leb_spec (- 2 ^ 63) z), (Z.ltb_spec z (2 ^ 63)); try lia.
Qed.

Lemma run_bind_undefined {A B} (m : tracked A) (f : A → tracked B) :
  run m = Undefined → run (m ≫= f) = Undefined.
Proof. intros Hm. unfold mbind, tracked_bind. simpl. by rewrite Hm. Qed.

Lemma run_sdiv64 x y :
  y ≠ 0 → - 2 ^ 63 ≤ Z.quot x y < 2 ^ 63 →
  run (sdiv64 x y) = Normal (Z.quot x y, true).
Proof.
  intros Hy Hq. unfold sdiv64. destruct (Z.eqb_spec y 0); [done|].
  by apply run_signed64.
Qed.

Lemma run_srem64 x y :
  y ≠ 0 → - 2 ^ 63 ≤ Z.quot x y < 2 ^ 63 →
  run (srem64 x y) = Normal (Z.rem x y, true).
Proof.
  intros Hy Hq. unfold srem64.
  by rewrite (run_bind _ _ (Z.quot x y) true) by (by apply run_sdiv64).
Qed.

Lemma mod_run a n :
  is_i64 a → is_i64 n → 0 < n →
  run (mod_ a n) =
    if Z.rem a n + n <? 2 ^ 63 then Normal (a mod n, true) else Undefined.
Proof.
  unfold is_i64. intros Ha Hn Hn0. unfold mod_.
  rewrite (run_bind _ _ () true) by (apply run_assert_true; lia).
  rewrite (run_bind _ _ (Z.rem a n) true)
    by (apply run_srem64; [lia|]; Z.to_euclidean_division_equations; nia).
  assert (- n < Z.rem a n < n) as Hr by (Z.to_euclidean_division_equations; nia).
  unfold sadd64.
  destruct (Z.ltb_spec (Z.rem a n + n) (2 ^ 63)) as [Hfit|Hover].
  - rewrite (run_bind _ _ (Z.rem a n + n) true) by (apply run_signed64; lia).
    rewrite (run_bind _ _ (Z.rem (Z.rem a n + n) n) true)
      by (apply run_srem64; [lia|]; Z.to_euclidean_division_equations; nia).
    rewrite run_mret. cbn [andb]. do 2 f_equal.
    rewrite Z.rem_mod_nonneg by lia.
    rewrite wrap_small by (pose proof (Z.mod_pos_bound (Z.rem a n + n) n); lia).
    replace (Z.rem a n + n) with (a + (1 - Z.quot a n) * n)
      by (pose proof (Z.quot_rem' a n); lia).
    apply Z_mod_plus_full.
  - rewrite (run_bind_undefined (signed64 _)); [done|].
    apply run_signed64_overflow. lia.
Qed.
End signed_facts.

(** Squares and powers. *)
Section power_facts.
Import ModularArithmetic.

Lemma run_bind_fuel {A B} (m : tracked (option A))
    (f : A → tracked (option B)) a e :
  run m = Normal (Some a, e) →
  run (bind_fuel m f) =
    match run (f a) with
    | Normal (b, e') => Normal (b, e && e')
    | Aborted => Aborted
    | Undefined => Undefined
    end.
Proof. intros Hm. unfold bind_fuel. by rewrite (run_bind _ _ (Some a) e). Qed.

Lemma mod_multiply_run a b n :
  0 ≤ a < n → 0 ≤ b < n → n < 2 ^ 64 →
  run (mod_multiply a b n) = Normal (Some ((a * b) mod n), true).
Proof.
  intros Ha Hb Hn. unfold mod_multiply.
  rewrite (run_bind _ _ () true) by (apply run_assert_true; lia).
  rewrite (run_bind _ _ () true) by (apply run_assert_true; lia).
  rewrite (run_bind _ _ () true) by (apply run_assert_true; lia).
  destruct (b >? a).
  - rewrite mod_multiply_loop_run
      by (try change (2 ^ Z.of_nat 64) with (2 ^ 64); lia).
    by rewrite Z.add_0_l, Z.mul_comm.
  - rewrite mod_multiply_loop_run
      by (try change (2 ^ Z.of_nat 64) with (2 ^ 64); lia).
    by rewrite Z.add_0_l.
Qed.

Lemma mod_sqr_run a n :
  0 ≤ a < n → n < 2 ^ 64 →
  run (mod_sqr a n) = Normal (Some ((a * a) mod n), true).
Proof.
  intros Ha Hn. unfold mod_sqr.
  rewrite (run_bind _ _ () true) by (apply run_assert_true; lia).
  rewrite (run_bind _ _ () true) by (apply run_assert_true; lia).
  by rewrite mod_multiply_run.
Qed.

(** The loop invariant of square-and-multiply: [y * z ^ e] is constant
    modulo [n]. *)
Lemma mod_power_loop_run fuel y z e n :
  2 ≤ n < 2 ^ 64 → 0 ≤ y < n → 0 ≤ z < n → 0 < e < 2 ^ Z.of_nat fuel →
  run (mod_power_loop fuel y z e n) = Normal (Some ((y * z ^ e) mod n), true).
Proof.
  intros Hn. revert y z e.
  induction fuel as [|fuel IH]; intros y z e Hy Hz He.
  { change (2 ^ Z.of_nat 0) with 1 in He. lia. }
  cbn [mod_power_loop].
  assert (Z.land e 1 = e mod 2) as -> by (apply (Z.land_ones e 1); lia).
  assert (Z.shiftr e 1 = e / 2) as -> by (apply (Z.shiftr_div_pow2 e 1); lia).
  pose proof (Z.div_mod e 2 ltac:(lia)) as Hdiv.
  pose proof (Z.mod_pos_bound e 2 ltac:(lia)) as Hmod.
  assert (0 ≤ e / 2 < 2 ^ Z.of_nat fuel) as He'.
  { rewrite Nat2Z.inj_succ, Z.pow_succ_r in He by lia. lia. }
  set (y' := if negb (e mod 2 =? 0) then (y * z) mod n else y).
  assert (0 ≤ y' < n) as Hy'.
  { unfold y'. destruct (negb _); [apply Z.mod_pos_bound|]; lia. }
  assert ((y' * (z * z) ^ (e / 2)) mod n = (y * z ^ e) mod n) as Hinv.
  { rewrite Hdiv at 2. rewrite Z.pow_add_r, Z.pow_mul_r, Z.pow_2_r by lia.
    unfold y'. destruct (Z.eqb_spec (e mod 2) 0) as [->| Hodd]; cbn [negb].
    - by rewrite Z.pow_0_r, Z.mul_1_r.
    - assert (e mod 2 = 1) as -> by lia.
      rewrite Z.pow_1_r, Z.mul_mod_idemp_l by lia. f_equal. lia. }
  rewrite (run_bind_fuel _ _ y' true); last first.
  { unfold y'. destruct (negb _); [apply mod_multiply_run; lia|done]. }
  destruct (Z.eqb_spec 0 (e / 2)) as [Hz0|Hnz].
  - rewrite run_mret. cbn [andb]. do 3 f_equal.
    rewrite <-Hinv, <-Hz0, Z.pow_0_r, Z.mul_1_r. by rewrite Z.mod_small.
  - rewrite (run_bind_fuel _ _ ((z * z) mod n) true) by (apply mod_sqr_run; lia).
    rewrite IH; [|done|apply Z.mod_pos_bound; lia|lia].
    cbn [andb]. do 3 f_equal.
    rewrite <-Hinv.
    rewrite <-Z.mul_mod_idemp_r, Z.mod_pow_l, Z.mul_mod_idemp_r by lia.
    done.
Qed.

Lemma mod_power_run a e n :
  2 ≤ n < 2 ^ 64 → 0 ≤ a < n → 0 ≤ e < 2 ^ 64 →
  run (mod_power a e n) = Normal (Some ((a ^ e) mod n), true).
Proof.
  intros Hn Ha He. unfold mod_power.
  rewrite (run_bind _ _ () true) by (apply run_assert_true; lia).
  rewrite (run_bind _ _ () true) by (apply run_assert_true; lia).
  destruct (Z.eqb_spec e 0) as [->|Hne].
  - rewrite run_mret. cbn [andb]. by rewrite Z.pow_0_r, Z.mod_small by lia.
  - rewrite mod_power_loop_run
      by (try change (2 ^ Z.of_nat 64) with (2 ^ 64); lia).
    by rewrite Z.mul_1_l.
Qed.

(** With modulus [1] the accumulator [y = 1] is not below the modulus: the
    first multiplication aborts. *)
Lemma mod_power_loop_modulus_one fuel e :
  0 < e < 2 ^ Z.of_nat fuel →
  run (mod_power_loop fuel 1 0 e 1) = Aborted.
Proof.
  revert e. induction fuel as [|fuel IH]; intros e He.
  { change (2 ^ Z.of_nat 0) with 1 in He. lia. }
  cbn [mod_power_loop].
  assert (Z.land e 1 = e mod 2) as -> by (apply (Z.land_ones e 1); lia).
  assert (Z.shiftr e 1 = e / 2) as -> by (apply (Z.shiftr_div_pow2 e 1); lia).
  pose proof (Z.div_mod e 2 ltac:(lia)) as Hdiv.
  pose proof (Z.mod_pos_bound e 2 ltac:(lia)) as Hmod.
  assert (0 ≤ e / 2 < 2 ^ Z.of_nat fuel) as He'.
  { rewrite Nat2Z.inj_succ, Z.pow_succ_r in He by lia. lia. }
  destruct (Z.eqb_spec (e mod 2) 0) as [Heven|Hodd]; cbn [negb].
  - rewrite (run_bind_fuel _ _ 1 true) by done.
    destruct (Z.eqb_spec 0 (e / 2)) as [Hz0|Hnz]; [lia|].
    rewrite (run_bind_fuel _ _ 0 true) by (by rewrite mod_sqr_run).
    by rewrite IH by lia.
  - unfold bind_fuel. apply run_bind_aborted.
    unfold mod_multiply. by apply run_bind_aborted.
Qed.
End power_facts.

(** The multiplicative inverse by Fermat's little theorem. *)
Section inverse_facts.
Import ModularArithmetic.

Lemma mod_multiplicative_inverse_run a n :
  2 ≤ n < 2 ^ 64 → 0 ≤ a < n →
  run (mod_multiplicative_inverse a n) = Normal (Some ((a ^ (n - 2)) mod n), true).
Proof.
  intros Hn Ha. unfold mod_multiplicative_inverse.
  rewrite (run_bind _ _ () true) by (apply run_assert_true; lia).
  rewrite (run_bind _ _ () true) by (apply run_assert_true; lia).
  rewrite (run_bind _ _ (n - 2) true) by (apply run_sub64_exact; lia).
  by rewrite mod_power_run by lia.
Qed.

Lemma fermat_inverse a n :
  Z.prime n → 0 < a < n → (a * (a ^ (n - 2) mod n)) mod n = 1.
Proof.
  intros Hp Ha. pose proof Hp as [Hn _].
  rewrite Z.mul_mod_idemp_r by lia.
  rewrite <-(Z.pow_1_r a) at 1. rewrite <-Z.pow_add_r by lia.
  replace (1 + (n - 2)) with (n - 1) by lia.
  apply ZmodInv.Z.fermat_nz; [done|]. rewrite Z.mod_small by lia. lia.
Qed.
End inverse_facts.

(** [mod_subtract(a, b, n)] on 64-bit unsigned [a], [b] below [n] returns
    [(a - b) mod n], and no operation it evaluates wraps modulo [2^64]:
    for [a < b] it computes [(n - b) + a]. *)
Theorem mod_subtract_correct (a b n : Z) :
  ModularArithmetic.is_u64 a → ModularArithmetic.is_u64 b →
  ModularArithmetic.is_u64 n → a < n → b < n →
  ModularArithmetic.run (ModularArithmetic.mod_subtract a b n)
  = Normal ((a - b) mod n, true).
Proof.
  unfold ModularArithmetic.is_u64. intros Ha Hb Hn Han Hbn.
  apply mod_subtract_run; lia.
Qed.

(** The difference computed by [main], line 225: [a < b]. *)
Lemma mod_subtract_correct_witness :
  ModularArithmetic.is_u64 18226785267862220
  ∧ ModularArithmetic.is_u64 6985665525488000877
  ∧ ModularArithmetic.is_u64 7985665525488000877
  ∧ 18226785267862220 < 7985665525488000877
  ∧ 6985665525488000877 < 7985665525488000877
  ∧ ModularArithmetic.run
      (ModularArithmetic.mod_subtract 18226785267862220 6985665525488000877
         7985665525488000877)
    = Normal (1018226785267862220, true).
Proof.
  assert (ModularArithmetic.is_u64 18226785267862220) as Ha
    by (unfold ModularArithmetic.is_u64; lia).
  assert (ModularArithmetic.is_u64 6985665525488000877) as Hb
    by (unfold ModularArithmetic.is_u64; lia).
  assert (ModularArithmetic.is_u64 7985665525488000877) as Hn
    by (unfold ModularArithmetic.is_u64; lia).
  split; [exact Ha|]. split; [exact Hb|]. split; [exact Hn|].
  split; [lia|]. split; [lia|].
  rewrite (mod_subtract_correct _ _ _ Ha Hb Hn) by lia. reflexivity.
Defined.

(** [mod_increment(a, n)] on 64-bit unsigned [a < n] returns
    [(a + 1) mod n], which is [0] for [a = n - 1]; the increment never
    wraps modulo [2^64]. *)
Theorem mod_increment_correct (a n : Z) :
  ModularArithmetic.is_u64 a → ModularArithmetic.is_u64 n → a < n →
  ModularArithmetic.run (ModularArithmetic.mod_increment a n)
  = Normal ((a + 1) mod n, true)
  ∧ (a = n - 1 →
     ModularArithmetic.run (ModularArithmetic.mod_increment a n) = Normal (0, true)).
Proof.
  unfold ModularArithmetic.is_u64. intros Ha Hn Han.
  rewrite mod_increment_run by lia. split; [done|].
  intros ->. replace (n - 1 + 1) with n by lia. by rewrite Z.mod_same by lia.
Qed.

(** The increment computed by [main], line 226. *)
Lemma mod_increment_correct_witness :
  ModularArithmetic.is_u64 68529989 ∧ ModularArithmetic.is_u64 68529990
  ∧ 68529989 < 68529990
  ∧ ModularArithmetic.run (ModularArithmetic.mod_increment 68529989 68529990)
    = Normal (0, true).
Proof.
  assert (ModularArithmetic.is_u64 68529989) as Ha
    by (unfold ModularArithmetic.is_u64; lia).
  assert (ModularArithmetic.is_u64 68529990) as Hn
    by (unfold ModularArithmetic.is_u64; lia).
  split; [exact Ha|]. split; [exact Hn|]. split; [lia|].
  apply (mod_increment_correct _ _ Ha Hn); lia.
Defined.

(** [mod_decrement(a, n)] on 64-bit unsigned [a < n] returns
    [(a - 1) mod n], which is [n - 1] for [a = 0]; the decrement never
    wraps modulo [2^64]. *)
Theorem mod_decrement_correct (a n : Z) :
  ModularArithmetic.is_u64 a → ModularArithmetic.is_u64 n → a < n →
  ModularArithmetic.run (ModularArithmetic.mod_decrement a n)
  = Normal ((a - 1) mod n, true)
  ∧ (a = 0 →
     ModularArithmetic.run (ModularArithmetic.mod_decrement a n)
     = Normal (n - 1, true)).
Proof.
  unfold ModularArithmetic.is_u64. intros Ha Hn Han.
  rewrite mod_decrement_run by lia. split; [done|].
  intros ->. do 2 f_equal. symmetry. apply (Z.mod_unique _ _ (-1)); lia.
Qed.

(** The decrement computed by [main], line 227. *)
Lemma mod_decrement_correct_witness :
  ModularArithmetic.is_u64 0 ∧ ModularArithmetic.is_u64 68529990
  ∧ 0 < 68529990
  ∧ ModularArithmetic.run (ModularArithmetic.mod_decrement 0 68529990)
    = Normal (68529989, true).
Proof.
  assert (ModularArithmetic.is_u64 0) as Ha
    by (unfold ModularArithmetic.is_u64; lia).
  assert (ModularArithmetic.is_u64 68529990) as Hn
    by (unfold ModularArithmetic.is_u64; lia).
  split; [exact Ha|]. split; [exact Hn|]. split; [lia|].
  apply (mod_decrement_correct _ _ Ha Hn); lia.
Defined.

(** [mod_additive_inverse(a, n)] on 64-bit unsigned [a < n] returns
    [(- a) mod n] without wrapping, and, as the comment of lines 96-97
    says, [mod_add] of [a] and the result returns [0]. *)
Theorem mod_additive_inverse_cancels (a n : Z) :
  ModularArithmetic.is_u64 a → ModularArithmetic.is_u64 n → a < n →
  ModularArithmetic.run (ModularArithmetic.mod_additive_inverse a n)
  = Normal ((- a) mod n, true)
  ∧ ModularArithmetic.run
      (x ← ModularArithmetic.mod_additive_inverse a n;
       ModularArithmetic.mod_add a x n)
    = Normal (0, true).
Proof.
  unfold ModularArithmetic.is_u64. intros Ha Hn Han.
  rewrite (run_bind _ _ ((- a) mod n) true) by (apply mod_additive_inverse_run; lia).
  rewrite mod_additive_inverse_run by lia. split; [done|].
  pose proof (Z.mod_pos_bound (- a) n ltac:(lia)).
  rewrite mod_add_run by lia. cbn [andb]. do 2 f_equal.
  rewrite Z.add_mod_idemp_r by lia.
  replace (a + - a) with 0 by lia. by apply Z.mod_0_l; lia.
Qed.

(** The inverse computed by [main], lines 228-229. *)
Lemma mod_additive_inverse_cancels_witness :
  ModularArithmetic.is_u64 5478239525828
  ∧ ModularArithmetic.is_u64 678874930481234881
  ∧ 5478239525828 < 678874930481234881
  ∧ ModularArithmetic.run
      (ModularArithmetic.mod_additive_inverse 5478239525828 678874930481234881)
    = Normal (678869452241709053, true)
  ∧ ModularArithmetic.run
      (x ← ModularArithmetic.mod_additive_inverse 5478239525828 678874930481234881;
       ModularArithmetic.mod_add 5478239525828 x 678874930481234881)
    = Normal (0, true).
Proof.
  assert (ModularArithmetic.is_u64 5478239525828) as Ha
    by (unfold ModularArithmetic.is_u64; lia).
  assert (ModularArithmetic.is_u64 678874930481234881) as Hn
    by (unfold ModularArithmetic.is_u64; lia).
  assert (5478239525828 < 678874930481234881) as Han by lia.
  split; [exact Ha|]. split; [exact Hn|]. split; [exact Han|].
  destruct (mod_additive_inverse_cancels _ _ Ha Hn Han) as [Hinv Hsum].
  split; [rewrite Hinv; reflexivity|exact Hsum].
Defined.

(** [mod(a, n)] on [int64_t]: it aborts for [n <= 0]; for [n > 0] it
    returns the Euclidean remainder of [a] by [n], an element of
    [[0, n)] also for negative [a], provided the sum [(a % n) + n] fits an
    [int64_t]; otherwise that addition overflows and the behaviour is
    undefined. *)
Theorem mod_euclidean_remainder (a n : Z) :
  ModularArithmetic.is_i64 a → ModularArithmetic.is_i64 n →
  (n ≤ 0 → ModularArithmetic.run (ModularArithmetic.mod_ a n) = Aborted)
  ∧ (0 < n → Z.rem a n + n < 2 ^ 63 →
     ModularArithmetic.run (ModularArithmetic.mod_ a n) = Normal (a mod n, true)
     ∧ 0 ≤ a mod n < n)
  ∧ (0 < n → 2 ^ 63 ≤ Z.rem a n + n →
     ModularArithmetic.run (ModularArithmetic.mod_ a n) = Undefined).
Proof.
  intros Ha Hn. split; [|split].
  - intros Hn0. unfold ModularArithmetic.mod_. apply run_bind_aborted.
    by destruct (Z.gtb_spec n 0); [lia|].
  - intros Hn0 Hfit. rewrite mod_run by done.
    destruct (Z.ltb_spec (Z.rem a n + n) (2 ^ 63)); [|lia].
    split; [done|]. apply Z.mod_pos_bound. lia.
  - intros Hn0 Hover. rewrite mod_run by done.
    by destruct (Z.ltb_spec (Z.rem a n + n) (2 ^ 63)); [lia|].
Qed.

(** The remainder computed by [main], line 222, of a negative [a]; and an
    [a] for which the intermediate sum overflows. *)
Lemma mod_euclidean_remainder_witness :
  ModularArithmetic.is_i64 (-9978483) ∧ ModularArithmetic.is_i64 6742
  ∧ ModularArithmetic.run (ModularArithmetic.mod_ (-9978483) 6742)
    = Normal (6419, true)
  ∧ ModularArithmetic.is_i64 9223372036854775806
  ∧ ModularArithmetic.is_i64 9223372036854775807
  ∧ ModularArithmetic.run
      (ModularArithmetic.mod_ 9223372036854775806 9223372036854775807)
    = Undefined.
Proof.
  assert (ModularArithmetic.is_i64 (-9978483)) as Ha
    by (unfold ModularArithmetic.is_i64; lia).
  assert (ModularArithmetic.is_i64 6742) as Hn
    by (unfold ModularArithmetic.is_i64; lia).
  assert (ModularArithmetic.is_i64 9223372036854775806) as Ha'
    by (unfold ModularArithmetic.is_i64; lia).
  assert (ModularArithmetic.is_i64 9223372036854775807) as Hn'
    by (unfold ModularArithmetic.is_i64; lia).
  split; [exact Ha|]. split; [exact Hn|].
  split.
  { destruct (mod_euclidean_remainder _ _ Ha Hn) as (_ & Hfit & _).
    destruct Hfit as [-> _]; [lia|vm_compute; reflexivity|reflexivity]. }
  split; [exact Ha'|]. split; [exact Hn'|].
  destruct (mod_euclidean_remainder _ _ Ha' Hn') as (_ & _ & Hover).
  apply Hover; [lia|vm_compute; discriminate].
Defined.

(** [mod_sqr(a, n)] on 64-bit unsigned [a < n] returns [(a * a) mod n]
    exactly, however large the square is. *)
Theorem mod_sqr_correct (a n : Z) :
  ModularArithmetic.is_u64 a → ModularArithmetic.is_u64 n → a < n →
  ModularArithmetic.run (ModularArithmetic.mod_sqr a n)
  = Normal (Some ((a * a) mod n), true).
Proof.
  unfold ModularArithmetic.is_u64. intros Ha Hn Han.
  apply mod_sqr_run; lia.
Qed.

(** The square computed by [main], line 231. *)
Lemma mod_sqr_correct_witness :
  ModularArithmetic.is_u64 9876743983658366132
  ∧ ModularArithmetic.is_u64 18446743988858366132
  ∧ 9876743983658366132 < 18446743988858366132
  ∧ ModularArithmetic.run
      (ModularArithmetic.mod_sqr 9876743983658366132 18446743988858366132)
    = Normal (Some 15149960791603154288, true).
Proof.
  assert (ModularArithmetic.is_u64 9876743983658366132) as Ha
    by (unfold ModularArithmetic.is_u64; lia).
  assert (ModularArithmetic.is_u64 18446743988858366132) as Hn
    by (unfold ModularArithmetic.is_u64; lia).
  split; [exact Ha|]. split; [exact Hn|]. split; [lia|].
  rewrite (mod_sqr_correct _ _ Ha Hn) by lia. reflexivity.
Defined.

(** [mod_power(a, e, n)] on 64-bit unsigned [a < n], any 64-bit exponent
    [e] and a modulus [n >= 2] returns [(a ^ e) mod n]: the
    square-and-multiply loop ends within the 64 iterations a [uint64_t]
    exponent allows, and no operation wraps modulo [2^64]. *)
Theorem mod_power_correct (a e n : Z) :
  ModularArithmetic.is_u64 a → ModularArithmetic.is_u64 e →
  ModularArithmetic.is_u64 n → 2 ≤ n → a < n →
  ModularArithmetic.run (ModularArithmetic.mod_power a e n)
  = Normal (Some ((a ^ e) mod n), true).
Proof.
  unfold ModularArithmetic.is_u64. intros Ha He Hn Hn2 Han.
  apply mod_power_run; lia.
Qed.

(** A power modulo a 64-bit modulus. *)
Lemma mod_power_correct_witness :
  ModularArithmetic.is_u64 7829454892340959985
  ∧ ModularArithmetic.is_u64 13
  ∧ ModularArithmetic.is_u64 12985254587577588852
  ∧ 2 ≤ 12985254587577588852
  ∧ 7829454892340959985 < 12985254587577588852
  ∧ ModularArithmetic.run
      (ModularArithmetic.mod_power 7829454892340959985 13 12985254587577588852)
    = Normal (Some 11228243005504901357, true).
Proof.
  assert (ModularArithmetic.is_u64 7829454892340959985) as Ha
    by (unfold ModularArithmetic.is_u64; lia).
  assert (ModularArithmetic.is_u64 13) as He
    by (unfold ModularArithmetic.is_u64; lia).
  assert (ModularArithmetic.is_u64 12985254587577588852) as Hn
    by (unfold ModularArithmetic.is_u64; lia).
  split; [exact Ha|]. split; [exact He|]. split; [exact Hn|].
  split; [lia|]. split; [lia|].
  rewrite (mod_power_correct _ _ _ Ha He Hn) by lia. vm_compute. reflexivity.
Defined.

(** With modulus [1] and a nonzero exponent [mod_power] aborts, although
    its own assertions hold for [a = 0]: the accumulator starts at [1],
    which fails [assert(a < n)] of [mod_multiply]. *)
Theorem mod_power_modulus_one_aborts (e : Z) :
  ModularArithmetic.is_u64 e → 0 < e →
  ModularArithmetic.run (ModularArithmetic.mod_power 0 e 1) = Aborted.
Proof.
  unfold ModularArithmetic.is_u64. intros He He0.
  unfold ModularArithmetic.mod_power.
  rewrite (run_bind _ _ () true) by (by apply run_assert_true).
  rewrite (run_bind _ _ () true) by (by apply run_assert_true).
  destruct (Z.eqb_spec e 0) as [->|_]; [lia|].
  rewrite mod_power_loop_modulus_one; [done|].
  change (2 ^ Z.of_nat 64) with (2 ^ 64). lia.
Qed.

Lemma mod_power_modulus_one_aborts_witness :
  ModularArithmetic.is_u64 6 ∧ 0 < 6
  ∧ ModularArithmetic.run (ModularArithmetic.mod_power 0 6 1) = Aborted.
Proof.
  assert (ModularArithmetic.is_u64 6) as He
    by (unfold ModularArithmetic.is_u64; lia).
  split; [exact He|]. split; [lia|].
  apply (mod_power_modulus_one_aborts _ He). lia.
Defined.

(** For a prime modulus [n] and [0 < a < n],
    [mod_multiplicative_inverse(a, n)] returns [x = a ^ (n - 2) mod n],
    an element of [[0, n)] with [(a * x) mod n = 1]; as the comment of
    lines 180-181 says, [mod_multiply] of [a] and [x] returns [1]. *)
Theorem mod_multiplicative_inverse_correct (a n : Z) :
  Z.prime n → ModularArithmetic.is_u64 n → 0 < a < n →
  ∃ x, ModularArithmetic.run (ModularArithmetic.mod_multiplicative_inverse a n)
       = Normal (Some x, true)
       ∧ 0 ≤ x < n
       ∧ (a * x) mod n = 1
       ∧ ModularArithmetic.run (ModularArithmetic.mod_multiply a x n)
         = Normal (Some 1, true).
Proof.
  unfold ModularArithmetic.is_u64. intros Hp Hn Ha. pose proof Hp as [Hn1 _].
  exists ((a ^ (n - 2)) mod n).
  pose proof (Z.mod_pos_bound (a ^ (n - 2)) n ltac:(lia)).
  split; [apply mod_multiplicative_inverse_run; lia|].
  split; [done|]. split; [by apply fermat_inverse|].
  rewrite mod_multiply_run by lia. by rewrite fermat_inverse.
Qed.

(** The inverse of [3] modulo [7] is [5]. *)
Lemma mod_multiplicative_inverse_correct_witness :
  Z.prime 7 ∧ ModularArithmetic.is_u64 7 ∧ 0 < 3 < 7
  ∧ ModularArithmetic.run (ModularArithmetic.mod_multiplicative_inverse 3 7)
    = Normal (Some 5, true)
  ∧ ModularArithmetic.run (ModularArithmetic.mod_multiply 3 5 7)
    = Normal (Some 1, true).
Proof.
  assert (Z.prime 7) as Hp.
  { split; [lia|]. intros k Hk [q Hq].
    assert (k = 2 ∨ k = 3 ∨ k = 4 ∨ k = 5 ∨ k = 6) as Hcases by lia.
    destruct Hcases as [->|[->|[->|[->| ->]]]]; lia. }
  assert (ModularArithmetic.is_u64 7) as Hn
    by (unfold ModularArithmetic.is_u64; lia).
  assert (0 < 3 < 7) as Ha by lia.
  split; [exact Hp|]. split; [exact Hn|]. split; [exact Ha|].
  destruct (mod_multiplicative_inverse_correct 3 7 Hp Hn Ha)
    as (x & Hx & _ & _ & Hmul).
  assert (x = 5) as -> by (vm_compute in Hx; congruence).
  split; [exact Hx|exact Hmul].
Defined.
